(** * The C runtime shims of swift-argument-parser

    A shallow embedding of [Sources/_CRuntime] (image inspection for the
    three object-file formats, pointer-authentication stripping) and of
    [Sources/CTools/shell.c], with the properties of the design document
    stated over it. *)

From Stdlib Require Import ZArith List String Lia Sorted Permutation.
From Stdlib Require OrderedTypeEx.
From stdpp Require Import base gmap strings list fin_maps.

Local Open Scope Z_scope.

(** ** C evaluation: defined results, void procedures, pointer arithmetic *)

Module C.

(** The outcome of evaluating a C expression: a value, or undefined
    behaviour (a null dereference). *)
Inductive result (A : Type) : Type :=
| Defined (a : A)
| Undefined.
Arguments Defined {A} a.
Arguments Undefined {A}.

(** A [void] function running on a state [S]. *)
Definition proc (S : Type) : Type := S -> result S.

Definition skip {S : Type} : proc S := fun s => Defined s.

Definition seq {S : Type} (p q : proc S) : proc S :=
  fun s => match p s with
           | Defined s' => q s'
           | Undefined => Undefined
           end.

(** [for (x in xs) body(x);] *)
Fixpoint for_each {S A : Type} (body : A -> proc S) (xs : list A) : proc S :=
  match xs with
  | [] => skip
  | x :: xs' => seq (body x) (for_each body xs')
  end.

(** The same procedure called [n] times in a row. *)
Fixpoint times {S : Type} (n : nat) (p : proc S) : proc S :=
  match n with
  | O => skip
  | S n' => seq p (times n' p)
  end.

(** [*p] for a pointer that may be null. *)
Definition deref {A : Type} (p : option A) : result A :=
  match p with
  | Some a => Defined a
  | None => Undefined
  end.

(** Data models: [sizeof(uintptr_t)] is 4 or 8. *)
Inductive data_model : Set := ILP32 | LP64.

Definition sizeof_uintptr_t (dm : data_model) : Z :=
  match dm with
  | ILP32 => 4
  | LP64 => 8
  end.

Definition sizeof_char : Z := 1.

(** Conversion of an integer to [size_t]: reduction modulo [2^(8*sizeof)]. *)
Definition to_size_t (dm : data_model) (z : Z) : Z :=
  z mod 2 ^ (8 * sizeof_uintptr_t dm).

(** Conversion of an integer to [ptrdiff_t]: reduction into the signed
    range [[-2^(bits-1), 2^(bits-1))]. *)
Definition to_ptrdiff_t (dm : data_model) (z : Z) : Z :=
  (z + 2 ^ (8 * sizeof_uintptr_t dm - 1)) mod 2 ^ (8 * sizeof_uintptr_t dm)
  - 2 ^ (8 * sizeof_uintptr_t dm - 1).

(** [p - q] for two pointers to elements of [elem] bytes, as it is
    compiled: the byte distance is taken in [ptrdiff_t], where it wraps,
    and divided by the element size with an arithmetic shift, which rounds
    towards minus infinity. *)
Definition ptr_diff (dm : data_model) (elem : Z) (p q : Z) : Z :=
  to_ptrdiff_t dm (p - q) / elem.

End C.

Import C.

Declare Scope proc_scope.
Delimit Scope proc_scope with proc.
Notation "p ;; q" := (seq p q)
  (at level 100, q at level 200, right associativity) : proc_scope.

(** ** Ptrauth.c, Ptrauth.h *)

Module Ptrauth.

(** Target CPU architectures; [__arm64e__] is defined on [arm64e] only. *)
Inductive arch : Set := arm64e | arm64 | x86_64 | armv7 | i386.

Definition defined___arm64e__ (a : arch) : bool :=
  match a with
  | arm64e => true
  | _ => false
  end.

(** The keys of [<ptrauth.h>]. *)
Inductive ptrauth_key : Set :=
| ptrauth_key_asia
| ptrauth_key_asib
| ptrauth_key_asda
| ptrauth_key_asdb.

Section Strip.

(** The bits of a pointer that hold the authentication code of a key, as a
    mask: fixed by the hardware configuration, not by this code. *)
Variable pac_field : ptrauth_key -> Z.

(** Modelled from the spec: the [ptrauth_strip] intrinsic of [<ptrauth.h>]
    is not part of the sources. It takes any bit pattern and returns it
    "with authentication bits cleared", "address bits untouched"; it reads
    no memory. *)
Definition ptrauth_strip (pointer : Z) (key : ptrauth_key) : Z :=
  Z.ldiff pointer (pac_field key).

(** [const void *__ptrauth_strip_asda(const void *pointer)], the body
    compiled under [#if defined(__arm64e__)]. *)
Definition __ptrauth_strip_asda (pointer : Z) : Z :=
  ptrauth_strip pointer ptrauth_key_asda.

(** What the translation unit and the header provide on an architecture:
    both the declaration and the definition sit inside
    [#if defined(__arm64e__)], with no [#else]. *)
Definition Ptrauth_h (a : arch) : option (Z -> Z) :=
  if defined___arm64e__ a then Some __ptrauth_strip_asda else None.

(** A caller's [__ptrauth_strip_asda(P)] on architecture [a]: a value where
    the function exists, nothing where it does not. *)
Definition call_strip (a : arch) (pointer : Z) : option Z :=
  match Ptrauth_h a with
  | Some f => Some (f pointer)
  | None => None
  end.

(** Modelled from the spec: the stripper as its users see it. Where
    [__arm64e__] is defined it is [__ptrauth_strip_asda]; on the other
    architectures the sources compile nothing, and the spec has "the
    identity function (no feature present, nothing to strip)". That
    fallback is not part of the sources. *)
Definition strip (a : arch) (pointer : Z) : Z :=
  if defined___arm64e__ a then __ptrauth_strip_asda pointer else pointer.

End Strip.

End Ptrauth.

(** ** CTools/shell.c *)

Module Shell.

(** [struct passwd] of [<pwd.h>]. *)
Record passwd : Type := {
  pw_name : string;
  pw_passwd : string;
  pw_uid : N;
  pw_gid : N;
  pw_gecos : string;
  pw_dir : string;
  pw_shell : string
}.

(** What the two system calls consult: the effective user id of the
    process and the user-account database, keyed by user id. *)
Record os : Type := {
  effective_uid : N;
  passwd_db : gmap N passwd
}.

Definition geteuid (o : os) : N := effective_uid o.

(** [getpwuid] returns a pointer to the matching record, or [NULL]. *)
Definition getpwuid (o : os) (uid : N) : option passwd := passwd_db o !! uid.

(** [char* shellPath(void) { return getpwuid(geteuid())->pw_shell; }] *)
Definition shellPath (o : os) : result string :=
  match deref (getpwuid o (geteuid o)) with
  | Defined pw => Defined (pw_shell pw)
  | Undefined => Undefined
  end.

End Shell.

(** ** ImageInspection.h, ImageInspection.c *)

Module ImageInspection.

(** A reference to a function: the external symbol it is bound to when the
    program is linked. *)
Inductive fn_ref : Type :=
| ExternFn (symbol : string).

(** One call that crosses into the higher-level runtime:
    [symbol(section, size)]. *)
Record call_event : Type := {
  callee : string;
  arg_section : Z;
  arg_size : Z
}.

(** The state the hooks run on: the calls delivered so far and the bytes
    mapped in the address space, which no hook reads or writes. *)
Record runtime : Type := {
  calls : list call_event;
  memory : gmap Z Z
}.

(** [handle(section, size)]: the call is handed over to the function the
    reference is bound to, and recorded. *)
Definition call (handle : fn_ref) (section size : Z) : proc runtime :=
  match handle with
  | ExternFn symbol =>
      fun r => Defined {| calls := calls r ++ [{| callee := symbol;
                                                 arg_section := section;
                                                 arg_size := size |}];
                          memory := memory r |}
  end.

(** *** Linked sections *)

(** The chunks a linker lays out one after the other in one output
    section, each a list of bytes. *)
Definition section_image (chunks : list (list Z)) : list Z := concat chunks.

(** The address of chunk [i] of a section loaded at [base]. *)
Definition chunk_address (base : Z) (chunks : list (list Z)) (i : nat) : Z :=
  base + Z.of_nat (length (concat (take i chunks))).

(** The byte at address [a] of an image loaded at [base]. *)
Definition byte_at (base : Z) (image : list Z) (a : Z) : option Z :=
  if a <? base then None else image !! Z.to_nat (a - base).

(** The addresses of the two symbols [__start_<name>] and [__stop_<name>]. *)
Record boundary_symbols : Type := {
  __start : Z;
  __stop : Z
}.

(** *** Mach-O *)

Module MachO.

Record section_64 : Type := {
  sectname : string;
  sect_addr : Z;
  sect_size : Z
}.

Record segment_command_64 : Type := {
  segname : string;
  sects : list section_64
}.

Record mach_header : Type := {
  segments : list segment_command_64
}.

(** A module mapped by the loader: its header and its slide. *)
Record image : Type := {
  header : mach_header;
  vmaddr_slide : Z
}.

(** The type of the functions [_dyld_register_func_for_add_image] takes. *)
Definition add_image_func : Type := mach_header -> Z -> proc runtime.

(** The host loader: the images mapped so far, in mapping order, the
    add-image functions registered so far, and the runtime they run on. *)
Record dyld : Type := {
  images : list image;
  add_image_funcs : list add_image_func;
  rt : runtime
}.

Definition in_runtime (p : proc runtime) : proc dyld :=
  fun d => match p (rt d) with
           | Defined r => Defined {| images := images d;
                                     add_image_funcs := add_image_funcs d;
                                     rt := r |}
           | Undefined => Undefined
           end.

Definition notify (func : add_image_func) (img : image) : proc dyld :=
  in_runtime (func (header img) (vmaddr_slide img)).

(** The loader's contract (dyld(3)): the function is recorded, called at
    once for every image already mapped, and called again for every image
    mapped later. The loader does not compare it with earlier ones. *)
Definition _dyld_register_func_for_add_image (func : add_image_func) : proc dyld :=
  fun d => for_each (notify func) (images d)
             {| images := images d;
                add_image_funcs := add_image_funcs d ++ [func];
                rt := rt d |}.

(** The loader maps one more image and announces it to every registered
    function. *)
Definition dyld_map_image (img : image) : proc dyld :=
  fun d => for_each (fun func => notify func img) (add_image_funcs d)
             {| images := images d ++ [img];
                add_image_funcs := add_image_funcs d;
                rt := rt d |}.

(** Modelled from the spec: the search [lookupSection] performs. The
    function is declared [extern] in ImageInspection.h and defined outside
    these sources; it must "search that module's segment-by-name, then
    section-by-name" and take "the first match". *)
Definition getsection (hdr : mach_header) (segment section : string)
  : option section_64 :=
  match find (fun sg => String.eqb (segname sg) segment) (segments hdr) with
  | Some sg => find (fun s => String.eqb (sectname s) section) (sects sg)
  | None => None
  end.

(** Modelled from the spec: the bounds [lookupSection] reports, "the first
    match's address and byte length", or [(null, 0)] "if the section is
    absent from that module". *)
Definition section_bounds (hdr : mach_header) (segment section : string) : Z * Z :=
  match getsection hdr segment section with
  | Some s => (sect_addr s, sect_size s)
  | None => (0, 0)
  end.

(** Modelled from the spec: [lookupSection] itself, which hands the bounds
    to the function it was given; for an absent section "registration
    simply receives (anything, 0)". *)
Definition lookupSection (hdr : mach_header) (segment section : string)
    (registerFunc : fn_ref) : proc runtime :=
  call registerFunc (fst (section_bounds hdr segment section))
                    (snd (section_bounds hdr segment section)).

Section Hook.

(** [registerProtocolConformances], declared [extern] in the header. *)
Variable registerProtocolConformances : fn_ref.

Definition _loadImageCallback (hdr : mach_header) (size : Z) : proc runtime :=
  lookupSection hdr "__TEXT" "__swift5_proto" registerProtocolConformances.

(** [__attribute__((__constructor__)) void loadImages()] *)
Definition loadImages : proc dyld :=
  _dyld_register_func_for_add_image _loadImageCallback.

(** A process: [before] are the images mapped when the constructor runs,
    [after] the ones the loader maps later. The constructor attribute makes
    the loader run [loadImages] once. *)
Definition boot (before : list image) (mem : gmap Z Z) : dyld :=
  {| images := before;
     add_image_funcs := [];
     rt := {| calls := []; memory := mem |} |}.

Definition lifetime (after : list image) : proc dyld :=
  (loadImages ;; for_each dyld_map_image after)%proc.

(** What one module is owed: its section's bounds, handed to the callback. *)
Definition delivery (symbol : string) (img : image) : call_event :=
  {| callee := symbol;
     arg_section := fst (section_bounds (header img) "__TEXT" "__swift5_proto");
     arg_size := snd (section_bounds (header img) "__TEXT" "__swift5_proto") |}.

End Hook.

End MachO.

(** *** ELF *)

Module ELF.

(** [DECLARE_SWIFT_SECTION(name)]: the [.section] directive contributes an
    empty input section, so that the linker defines both symbols even when
    no other translation unit contributes. *)
Definition DECLARE_SWIFT_SECTION : list Z := [].

(** The linker defines [__start_<name>] and [__stop_<name>] at the two ends
    of the output section, here loaded at [base] and made of this header's
    empty input followed by the contributions of the translation units,
    for contributions that need no padding between them (see [ELFLayout]
    for inputs with an alignment). *)
Definition chunks (contributions : list (list Z)) : list (list Z) :=
  DECLARE_SWIFT_SECTION :: contributions.

Definition link (base : Z) (contributions : list (list Z)) : boundary_symbols :=
  {| __start := chunk_address base (chunks contributions) 0;
     __stop := chunk_address base (chunks contributions)
                 (length (chunks contributions)) |}.

Section Hook.

Variable dm : data_model.
Variable registerProtocolConformances : fn_ref.

(** [handle(&__start_##name, &__stop_##name - &__start_##name);] with both
    symbols declared [extern const char]. *)
Definition SWIFT_REGISTER_SECTION (name : boundary_symbols) (handle : fn_ref)
  : proc runtime :=
  call handle (__start name)
       (to_size_t dm (ptr_diff dm sizeof_char (__stop name) (__start name))).

(** [__attribute__((__constructor__)) void loadImages()] *)
Definition loadImages (swift5_protocol_conformances : boundary_symbols)
  : proc runtime :=
  SWIFT_REGISTER_SECTION swift5_protocol_conformances
                         registerProtocolConformances.

End Hook.

End ELF.

(** *** COFF *)

Module COFF.

(** The object representation of a [uintptr_t] initialised to 0. *)
Definition sentinel (dm : data_model) : list Z :=
  replicate (Z.to_nat (sizeof_uintptr_t dm)) 0.

(** The two objects [DECLARE_SWIFT_SECTION(name)] defines, each in a
    sub-section of its own. *)
Record declared_section : Type := {
  sub_A : list Z;
  sub_C : list Z
}.

(** [static uintptr_t __start_##name = 0;] allocated in [.name$A] and
    [static uintptr_t __stop_##name = 0;] allocated in [.name$C], both with
    alignment 1. *)
Definition DECLARE_SWIFT_SECTION (dm : data_model) : declared_section :=
  {| sub_A := sentinel dm; sub_C := sentinel dm |}.

(** The linker merges the sub-sections of [.sw5prtc] in the order of their
    suffixes: [$A] with [__start], the contributions, [$C] with [__stop]. *)
Definition chunks (dm : data_model) (contributions : list (list Z))
  : list (list Z) :=
  [sub_A (DECLARE_SWIFT_SECTION dm)] ++ contributions
  ++ [sub_C (DECLARE_SWIFT_SECTION dm)].


Definition link (dm : data_model) (base : Z) (contributions : list (list Z))
  : boundary_symbols :=
  {| __start := chunk_address base (chunks dm contributions) 0;
     __stop := chunk_address base (chunks dm contributions)
                 (S (length contributions)) |}.

Section Hook.

Variable dm : data_model.
Variable registerProtocolConformances : fn_ref.

(** [handle(&__start_##name, &__stop_##name - &__start_##name);] with both
    symbols [static uintptr_t]; the first argument is cast to a pointer to
    [const char]. *)
Definition SWIFT_REGISTER_SECTION (name : boundary_symbols) (handle : fn_ref)
  : proc runtime :=
  call handle (__start name)
       (to_size_t dm
          (ptr_diff dm (sizeof_uintptr_t dm) (__stop name) (__start name))).

(** [void loadImages()], run once by the CRT through [pLoadImages] in
    [.CRT$XCIS]. *)
Definition loadImages (sw5prtc : boundary_symbols) : proc runtime :=
  SWIFT_REGISTER_SECTION sw5prtc registerProtocolConformances.

End Hook.

End COFF.

(** *** Observations on an outcome *)

(** The calls delivered when the run is defined. *)
Definition delivered (out : result runtime) : option (list call_event) :=
  match out with
  | Defined r => Some (calls r)
  | Undefined => None
  end.

Definition delivered_by_loader (out : result MachO.dyld)
  : option (list call_event) :=
  match out with
  | Defined d => Some (calls (MachO.rt d))
  | Undefined => None
  end.


(** The number of add-image functions the loader holds after the run. *)
Definition registrations (out : result MachO.dyld) : option nat :=
  match out with
  | Defined d => Some (length (MachO.add_image_funcs d))
  | Undefined => None
  end.

End ImageInspection.

(** ** ELF output sections with aligned inputs *)

Module ELFLayout.

Import ImageInspection.

(** An input section of one object file: its alignment and its bytes. *)
Record input_section : Type := {
  sh_addralign : Z;
  sh_contents : list Z
}.

(** [addr] rounded up to a multiple of [a]. *)
Definition align_up (addr a : Z) : Z := (addr + a - 1) / a * a.

(** The linker places the inputs in link order, each at the next multiple
    of its alignment. [addresses] gives the address of each input for an
    output section whose first free address is [addr]. *)
Fixpoint addresses (addr : Z) (inputs : list input_section) : list Z :=
  match inputs with
  | [] => []
  | i :: inputs' =>
      align_up addr (sh_addralign i)
      :: addresses (align_up addr (sh_addralign i)
                    + Z.of_nat (length (sh_contents i))) inputs'
  end.

(** The first address after the last input. *)
Fixpoint section_end (addr : Z) (inputs : list input_section) : Z :=
  match inputs with
  | [] => addr
  | i :: inputs' =>
      section_end (align_up addr (sh_addralign i)
                   + Z.of_nat (length (sh_contents i))) inputs'
  end.

(** The bytes of the output section from [addr] on: the gaps before
    aligned inputs are filled with zero bytes. *)
Fixpoint output (addr : Z) (inputs : list input_section) : list Z :=
  match inputs with
  | [] => []
  | i :: inputs' =>
      replicate (Z.to_nat (align_up addr (sh_addralign i) - addr)) 0
      ++ sh_contents i
      ++ output (align_up addr (sh_addralign i)
                 + Z.of_nat (length (sh_contents i))) inputs'
  end.

(** Inputs whose alignments are all positive. *)
Definition aligned_inputs (inputs : list input_section) : Prop :=
  Forall (fun i => 0 < sh_addralign i) inputs.

(** The empty input section of [DECLARE_SWIFT_SECTION(name)]: the
    [.section] directive sets no alignment. *)
Definition DECLARE_SWIFT_SECTION : input_section :=
  {| sh_addralign := 1; sh_contents := ELF.DECLARE_SWIFT_SECTION |}.

(** [__start_<name>] is the address of the output section, [__stop_<name>]
    the first address after its last input. *)
Definition link (base : Z) (inputs : list input_section) : boundary_symbols :=
  {| __start := base;
     __stop := section_end base (DECLARE_SWIFT_SECTION :: inputs) |}.

End ELFLayout.

(** ** Concrete inputs *)

Module Samples.

Import Ptrauth Shell ImageInspection.

(** A pointer layout with 47 address bits: the authentication code sits in
    bits 47 to 54 and 56 to 63. *)
Definition pac_field_47 (key : ptrauth_key) : Z := 0xFF7F800000000000.

Definition signed_pointer : Z := 0x2A5B800000001000.

Definition root_entry : passwd :=
  {| pw_name := "root"; pw_passwd := "x"; pw_uid := 0; pw_gid := 0;
     pw_gecos := "root"; pw_dir := "/root"; pw_shell := "/bin/zsh" |}.

Definition os_with_entry : os :=
  {| effective_uid := 0; passwd_db := {[ 0%N := root_entry ]} |}.

Definition os_without_entry : os :=
  {| effective_uid := 501; passwd_db := {[ 0%N := root_entry ]} |}.

Definition callback : fn_ref := ExternFn "registerProtocolConformances".

Definition fresh : runtime := {| calls := []; memory := ∅ |}.

(** One conformance record of 16 bytes. *)
Definition record16 : list Z := replicate 16 7.

Definition proto_section : MachO.section_64 :=
  {| MachO.sectname := "__swift5_proto";
     MachO.sect_addr := 8192;
     MachO.sect_size := 16 |}.

Definition image_with_section : MachO.image :=
  {| MachO.header :=
       {| MachO.segments := [{| MachO.segname := "__TEXT";
                                MachO.sects := [proto_section] |}] |};
     MachO.vmaddr_slide := 0 |}.

Definition image_without_section : MachO.image :=
  {| MachO.header := {| MachO.segments := [] |}; MachO.vmaddr_slide := 0 |}.

End Samples.

(** ** Sub-sections: the COFF linker and the CRT start-up *)

Module Subsections.

Import ImageInspection.

(** The COFF linker merges the contributions to [.name$suffix] into one
    section [.name], ordered by suffix (byte-wise), contributions with the
    same suffix staying in the order of the link. [place] puts one
    contribution into an ordered table, before the first entry whose suffix
    is not smaller than its own. *)
Fixpoint place {A : Type} (e : string * A) (table : list (string * A))
  : list (string * A) :=
  match table with
  | [] => [e]
  | x :: table' =>
      if String.leb (fst e) (fst x) then e :: x :: table'
      else x :: place e table'
  end.

Definition merge {A : Type} (objs : list (string * A)) : list (string * A) :=
  foldr place [] objs.

(** Two entries in the order of their suffixes. *)
Definition ordered {A : Type} (x y : string * A) : Prop :=
  String.leb (fst x) (fst y) = true.

(** [DECLARE_SWIFT_SECTION(name)] as contributions: the start word in
    [.name$A], the stop word in [.name$C]. *)
Definition declared (dm : data_model) : list (string * list Z) :=
  [("A"%string, COFF.sub_A (COFF.DECLARE_SWIFT_SECTION dm));
   ("C"%string, COFF.sub_C (COFF.DECLARE_SWIFT_SECTION dm))].

(** A suffix that sorts strictly between the two of the header. *)
Definition between_A_and_C (suffix : string) : bool :=
  String.ltb "A" suffix && String.ltb suffix "C".

(** A pointer to a [void (void)] function, possibly null. *)
Definition initializer : Type := option (proc runtime).

(** The CRT walks the merged table of [.CRT$XC*] and calls every entry that
    is not null. *)
Definition _initterm (table : list (string * initializer)) : proc runtime :=
  for_each (fun e => match snd e with
                     | Some f => f
                     | None => skip
                     end) table.

Section Startup.

Variable dm : data_model.
Variable registerProtocolConformances : fn_ref.
Variable sw5prtc : boundary_symbols.

(** [void ( *pLoadImages)(void) = &loadImages;] allocated in [.CRT$XCIS]. *)
Definition pLoadImages : string * initializer :=
  ("XCIS"%string, Some (COFF.loadImages dm registerProtocolConformances sw5prtc)).

(** Start-up of an image linked from the objects [earlier], this object
    and the objects [later], in this order. *)
Definition startup (earlier later : list (string * initializer))
  : proc runtime :=
  _initterm (merge (earlier ++ pLoadImages :: later)).

End Startup.

(** Whether a sub-section sorts before [.CRT$XCIS]. *)
Definition before_XCIS (e : string * initializer) : bool :=
  String.ltb (fst e) "XCIS".

(** Whether a sub-section sorts before [.CRT$XCIS] or is [.CRT$XCIS]. *)
Definition up_to_XCIS (e : string * initializer) : bool :=
  String.leb (fst e) "XCIS".

End Subsections.

(** ** MetadataViews.h *)

Module MetadataViews.

(** The types the views are declared with. *)
#[warnings="-register-all"]
Inductive ctype : Type :=
| intptr_t
| const_void_ptr
| int32_t
| uint32_t
| uint16_t
| array (elem : ctype) (n : nat)
| struct (fields : list (string * ctype)).

(** [off] rounded up to a multiple of [a]. *)
Definition align_up (off a : Z) : Z := (off + a - 1) / a * a.

(** Natural alignment: a scalar is aligned to its size, an array like its
    elements, a struct like its most aligned field. *)
Fixpoint alignof (dm : data_model) (t : ctype) : Z :=
  match t with
  | intptr_t | const_void_ptr => sizeof_uintptr_t dm
  | int32_t | uint32_t => 4
  | uint16_t => 2
  | array elem _ => alignof dm elem
  | struct fields =>
      (fix most fs :=
         match fs with
         | [] => 1
         | f :: fs' => Z.max (alignof dm (snd f)) (most fs')
         end) fields
  end.

(** Fields are laid out in declaration order, each at the next multiple of
    its alignment; the size of a struct is rounded up to its alignment. *)
Fixpoint sizeof (dm : data_model) (t : ctype) : Z :=
  match t with
  | intptr_t | const_void_ptr => sizeof_uintptr_t dm
  | int32_t | uint32_t => 4
  | uint16_t => 2
  | array elem n => Z.of_nat n * sizeof dm elem
  | struct fields =>
      align_up
        ((fix first_free fs off :=
            match fs with
            | [] => off
            | f :: fs' =>
                first_free fs' (align_up off (alignof dm (snd f))
                                + sizeof dm (snd f))
            end) fields 0)
        (alignof dm (struct fields))
  end.

(** The offset of every field, in declaration order, for fields placed from
    offset [off] on. *)
Fixpoint layout (dm : data_model) (fields : list (string * ctype)) (off : Z)
  : list (string * Z) :=
  match fields with
  | [] => []
  | f :: fields' =>
      (fst f, align_up off (alignof dm (snd f)))
      :: layout dm fields'
           (align_up off (alignof dm (snd f)) + sizeof dm (snd f))
  end.

Definition fields_of (t : ctype) : list (string * ctype) :=
  match t with
  | struct fields => fields
  | _ => []
  end.

(** [offsetof(t, field)] *)
Definition offsetof (dm : data_model) (t : ctype) (field : string) : option Z :=
  snd <$> List.find (fun p => String.eqb (fst p) field)
                    (layout dm (fields_of t) 0).

(** The bytes the fields themselves take, padding left out. *)
Definition payload (dm : data_model) (t : ctype) : Z :=
  foldr (fun f acc => sizeof dm (snd f) + acc) 0 (fields_of t).

Definition ClassMetadata : ctype :=
  struct [("kind", intptr_t);
          ("superclass", const_void_ptr);
          ("flags", uint32_t);
          ("instanceAddressPoint", uint32_t);
          ("instanceSize", uint32_t);
          ("instanceAlignmentMask", uint16_t);
          ("runtimeReserved", uint16_t);
          ("classSize", uint32_t);
          ("classAddressPoint", uint32_t);
          ("descriptor", const_void_ptr)]%string.

Definition ClassMetadataObjC : ctype :=
  struct [("kind", intptr_t);
          ("superclass", const_void_ptr);
          ("cacheData", array intptr_t 2);
          ("data", const_void_ptr);
          ("flags", uint32_t);
          ("instanceAddressPoint", uint32_t);
          ("instanceSize", uint32_t);
          ("instanceAlignmentMask", uint16_t);
          ("runtimeReserved", uint16_t);
          ("classSize", uint32_t);
          ("classAddressPoint", uint32_t);
          ("descriptor", const_void_ptr)]%string.

Definition ConformanceDescriptor : ctype :=
  struct [("protocol", int32_t);
          ("typeReference", int32_t);
          ("witnessTablePattern", int32_t);
          ("flags", uint32_t)]%string.

Definition ContextDescriptor : ctype :=
  struct [("flags", uint32_t);
          ("parent", int32_t)]%string.

Definition EnumMetadata : ctype :=
  struct [("kind", intptr_t);
          ("descriptor", const_void_ptr)]%string.

Definition ExistentialMetadata : ctype :=
  struct [("kind", intptr_t);
          ("flags", uint32_t);
          ("numProtocols", uint32_t)]%string.

Definition StructMetadata : ctype :=
  struct [("kind", intptr_t);
          ("descriptor", const_void_ptr)]%string.

Definition TypeContextDescriptor : ctype :=
  struct [("base", ContextDescriptor);
          ("name", int32_t);
          ("accessor", int32_t)]%string.

(** Every view the header declares. *)
Definition views : list ctype :=
  [ClassMetadata; ClassMetadataObjC; ConformanceDescriptor; ContextDescriptor;
   EnumMetadata; ExistentialMetadata; StructMetadata; TypeContextDescriptor].

(** The views of records emitted into the binary, as opposed to the views
    of runtime metadata objects. *)
Definition descriptors : list ctype :=
  [ConformanceDescriptor; ContextDescriptor; TypeContextDescriptor].

End MetadataViews.

(** ** Properties of the pointer-authentication stripper *)

Module PtrauthFacts.

Import Ptrauth.

Lemma ptrauth_strip_testbit pac P key i :
  Z.testbit (ptrauth_strip pac P key) i
  = if Z.testbit (pac key) i then false else Z.testbit P i.
Proof.
  unfold ptrauth_strip. rewrite Z.ldiff_spec.
  destruct (Z.testbit (pac key) i); simpl.
  - apply andb_false_r.
  - apply andb_true_r.
Qed.

Lemma ptrauth_strip_twice pac P key :
  ptrauth_strip pac (ptrauth_strip pac P key) key = ptrauth_strip pac P key.
Proof.
  apply Z.bits_inj'. intros i _.
  rewrite !ptrauth_strip_testbit.
  destruct (Z.testbit (pac key) i); reflexivity.
Qed.

Lemma Ptrauth_h_cases pac a :
  Ptrauth_h pac a
  = if defined___arm64e__ a then Some (__ptrauth_strip_asda pac) else None.
Proof. reflexivity. Qed.

Lemma land_zero_bits a m i :
  Z.land a m = 0 -> Z.testbit a i && Z.testbit m i = false.
Proof.
  intros H. rewrite <- Z.land_spec, H. apply Z.bits_0.
Qed.

Lemma ldiff_zero_bits s m i :
  Z.ldiff s m = 0 -> Z.testbit s i && negb (Z.testbit m i) = false.
Proof.
  intros H. rewrite <- Z.ldiff_spec, H. apply Z.bits_0.
Qed.

Lemma ptrauth_strip_no_code pac P key :
  Z.land (ptrauth_strip pac P key) (pac key) = 0.
Proof.
  apply Z.bits_inj'. intros i _.
  rewrite Z.land_spec, ptrauth_strip_testbit, Z.bits_0.
  destruct (Z.testbit (pac key) i); [reflexivity | apply andb_false_r].
Qed.

Lemma ptrauth_strip_signed pac A S key :
  Z.land A (pac key) = 0 -> Z.ldiff S (pac key) = 0 ->
  ptrauth_strip pac (Z.lor A S) key = A.
Proof.
  intros HA HS. apply Z.bits_inj'. intros i _.
  rewrite ptrauth_strip_testbit, Z.lor_spec.
  pose proof (land_zero_bits A (pac key) i HA) as Ha.
  pose proof (ldiff_zero_bits S (pac key) i HS) as Hs.
  destruct (Z.testbit (pac key) i), (Z.testbit A i), (Z.testbit S i);
    simpl in *; congruence.
Qed.

Lemma ldiff_le_nonneg P m : 0 <= P -> 0 <= Z.ldiff P m <= P.
Proof.
  intros HP. split; [apply Z.ldiff_nonneg; left; exact HP |].
  pose proof (Z.add_lor_land (Z.ldiff P m) (Z.land P m)) as Hsum.
  rewrite Z.lor_ldiff_and in Hsum.
  assert (Hdisjoint : Z.land (Z.ldiff P m) (Z.land P m) = 0).
  { apply Z.bits_inj'. intros i _.
    rewrite !Z.land_spec, Z.ldiff_spec, Z.bits_0.
    destruct (Z.testbit P i), (Z.testbit m i); reflexivity. }
  assert (0 <= Z.land P m) by (apply Z.land_nonneg; left; exact HP).
  lia.
Qed.

Lemma ptrauth_strip_range pac P key :
  0 <= P < 2 ^ 64 -> 0 <= ptrauth_strip pac P key < 2 ^ 64.
Proof.
  intros HP. unfold ptrauth_strip.
  pose proof (ldiff_le_nonneg P (pac key) (proj1 HP)). lia.
Qed.

(** C6. The stripper is the identity where the hardware feature is absent;
    where [__arm64e__] is defined it is [__ptrauth_strip_asda], one call of
    the intrinsic with the fixed key [ptrauth_key_asda]. For every bit
    pattern [P] the result has no bit of the authentication code left and
    every other bit as in [P]: a pointer made of an address and a code
    strips to the address, the code fields of the other keys play no part,
    and a 64-bit pattern gives a 64-bit pattern. *)
Theorem stripper_clears_the_code_and_keeps_the_address pac a P :
  (defined___arm64e__ a = false -> strip pac a P = P)
  /\ (defined___arm64e__ a = true ->
      strip pac a P = __ptrauth_strip_asda pac P)
  /\ __ptrauth_strip_asda pac P = ptrauth_strip pac P ptrauth_key_asda
  /\ Z.land (__ptrauth_strip_asda pac P) (pac ptrauth_key_asda) = 0
  /\ (forall i,
        Z.testbit (pac ptrauth_key_asda) i = false ->
        Z.testbit (__ptrauth_strip_asda pac P) i = Z.testbit P i)
  /\ (forall A S,
        Z.land A (pac ptrauth_key_asda) = 0 ->
        Z.ldiff S (pac ptrauth_key_asda) = 0 ->
        __ptrauth_strip_asda pac (Z.lor A S) = A)
  /\ (forall pac' : ptrauth_key -> Z,
        pac' ptrauth_key_asda = pac ptrauth_key_asda ->
        __ptrauth_strip_asda pac' P = __ptrauth_strip_asda pac P)
  /\ (0 <= P < 2 ^ 64 -> 0 <= __ptrauth_strip_asda pac P < 2 ^ 64).
Proof.
  unfold strip, __ptrauth_strip_asda.
  split; [intros Ha; rewrite Ha; reflexivity |].
  split; [intros Ha; rewrite Ha; reflexivity |].
  split; [reflexivity |].
  split; [apply ptrauth_strip_no_code |].
  split; [intros i Hi; rewrite ptrauth_strip_testbit, Hi; reflexivity |].
  split; [intros A S; apply ptrauth_strip_signed |].
  split; [intros pac' Hsame; unfold ptrauth_strip; rewrite Hsame; reflexivity |].
  apply ptrauth_strip_range.
Qed.

Lemma stripper_clears_the_code_and_keeps_the_address_witness :
  (defined___arm64e__ x86_64 = false
   /\ strip Samples.pac_field_47 x86_64 Samples.signed_pointer
      = Samples.signed_pointer)
  /\ (defined___arm64e__ arm64e = true
      /\ strip Samples.pac_field_47 arm64e Samples.signed_pointer = 4096)
  /\ (Z.land 4096 (Samples.pac_field_47 ptrauth_key_asda) = 0
      /\ Z.ldiff 0x2A5B800000000000 (Samples.pac_field_47 ptrauth_key_asda)
         = 0
      /\ __ptrauth_strip_asda Samples.pac_field_47
                              (Z.lor 4096 0x2A5B800000000000) = 4096)
  /\ (0 <= Samples.signed_pointer < 2 ^ 64
      /\ 0 <= __ptrauth_strip_asda Samples.pac_field_47 Samples.signed_pointer
         < 2 ^ 64).
Proof.
  pose proof (stripper_clears_the_code_and_keeps_the_address
                Samples.pac_field_47 x86_64 Samples.signed_pointer)
    as (Hoff & _).
  pose proof (stripper_clears_the_code_and_keeps_the_address
                Samples.pac_field_47 arm64e Samples.signed_pointer)
    as (_ & Hon & _ & _ & _ & Hsigned & _ & Hrange).
  assert (Haddress : Z.land 4096 (Samples.pac_field_47 ptrauth_key_asda) = 0)
    by reflexivity.
  assert (Hcode : Z.ldiff 0x2A5B800000000000
                          (Samples.pac_field_47 ptrauth_key_asda) = 0)
    by reflexivity.
  assert (HP : 0 <= Samples.signed_pointer < 2 ^ 64)
    by (vm_compute; split; [discriminate | reflexivity]).
  split; [split; [reflexivity | exact (Hoff eq_refl)] |].
  split; [split; [reflexivity | rewrite (Hon eq_refl); reflexivity] |].
  split; [split; [exact Haddress | split; [exact Hcode |]] |].
  - exact (Hsigned 4096 0x2A5B800000000000 Haddress Hcode).
  - split; [exact HP | exact (Hrange HP)].
Defined.

(** C10. Stripping twice is stripping once: for the function compiled on
    arm64e, and, on every architecture, for a call of it followed by a
    second call on the result. *)
Theorem strip_asda_idempotent pac P :
  __ptrauth_strip_asda pac (__ptrauth_strip_asda pac P)
  = __ptrauth_strip_asda pac P
  /\ forall a, call_strip pac a P ≫= call_strip pac a = call_strip pac a P.
Proof.
  split.
  - apply ptrauth_strip_twice.
  - intros a. unfold call_strip. rewrite Ptrauth_h_cases.
    destruct (defined___arm64e__ a); simpl; [| reflexivity].
    f_equal. apply ptrauth_strip_twice.
Qed.

End PtrauthFacts.

(** ** Properties of [shellPath] *)

Module ShellFacts.

Import Shell.

(** C8. [shellPath] dereferences whatever [getpwuid(geteuid())] returns:
    with a record for the effective user it returns that record's
    [pw_shell]; with no record the lookup is null and the dereference is
    undefined behaviour, not an error value. *)
Theorem shellPath_dereferences_lookup (o : os) :
  (forall pw, getpwuid o (geteuid o) = Some pw ->
              shellPath o = Defined (pw_shell pw))
  /\ (getpwuid o (geteuid o) = None -> shellPath o = Undefined).
Proof.
  unfold shellPath. split.
  - intros pw Hpw. rewrite Hpw. reflexivity.
  - intros Hnone. rewrite Hnone. reflexivity.
Qed.

Lemma shellPath_dereferences_lookup_witness :
  (getpwuid Samples.os_with_entry (geteuid Samples.os_with_entry)
   = Some Samples.root_entry
   /\ shellPath Samples.os_with_entry = Defined "/bin/zsh"%string)
  /\ (getpwuid Samples.os_without_entry (geteuid Samples.os_without_entry)
      = None
      /\ shellPath Samples.os_without_entry = Undefined).
Proof.
  split; split.
  - vm_compute. reflexivity.
  - apply (proj1 (shellPath_dereferences_lookup Samples.os_with_entry)
                 Samples.root_entry).
    vm_compute. reflexivity.
  - vm_compute. reflexivity.
  - apply (proj2 (shellPath_dereferences_lookup Samples.os_without_entry)).
    vm_compute. reflexivity.
Defined.

End ShellFacts.

(** ** Properties of the image-inspection hooks *)

Module ImageFacts.

Import ImageInspection.

(** *** Procedures *)

Lemma times_succ {S : Type} (n : nat) (p : proc S) (s s' : S) :
  p s = Defined s' -> times (Datatypes.S n) p s = times n p s'.
Proof. intros Hp. simpl. unfold seq. rewrite Hp. reflexivity. Qed.

Lemma call_extern symbol section size r :
  call (ExternFn symbol) section size r
  = Defined {| calls := calls r ++ [{| callee := symbol;
                                       arg_section := section;
                                       arg_size := size |}];
               memory := memory r |}.
Proof. reflexivity. Qed.

(** *** Layout of a linked section *)

Lemma chunk_address_first base cs : chunk_address base cs 0 = base.
Proof. unfold chunk_address. simpl. lia. Qed.

Lemma chunk_address_end base cs :
  chunk_address base cs (length cs) = base + Z.of_nat (length (concat cs)).
Proof. unfold chunk_address. rewrite firstn_all. reflexivity. Qed.

Lemma sizeof_uintptr_t_pos dm : 0 < sizeof_uintptr_t dm.
Proof. destruct dm; reflexivity. Qed.

Lemma length_sentinel dm :
  Z.of_nat (length (COFF.sentinel dm)) = sizeof_uintptr_t dm.
Proof. destruct dm; reflexivity. Qed.

Lemma to_size_t_small dm z :
  0 <= z < 2 ^ (8 * sizeof_uintptr_t dm) -> to_size_t dm z = z.
Proof. intros Hz. unfold to_size_t. apply Z.mod_small. exact Hz. Qed.

Lemma to_size_t_ptrdiff dm z : to_size_t dm (to_ptrdiff_t dm z) = to_size_t dm z.
Proof.
  unfold to_size_t, to_ptrdiff_t.
  rewrite Zminus_mod_idemp_l. f_equal. lia.
Qed.

Lemma to_ptrdiff_t_small dm z :
  - 2 ^ (8 * sizeof_uintptr_t dm - 1) <= z < 2 ^ (8 * sizeof_uintptr_t dm - 1) ->
  to_ptrdiff_t dm z = z.
Proof.
  intros Hz. unfold to_ptrdiff_t.
  rewrite Z.mod_small; [lia |].
  destruct dm; simpl in *; lia.
Qed.

Lemma ptr_diff_char dm p q :
  to_size_t dm (ptr_diff dm sizeof_char p q) = to_size_t dm (p - q).
Proof.
  unfold ptr_diff, sizeof_char. rewrite Z.div_1_r. apply to_size_t_ptrdiff.
Qed.

(** Between two [uintptr_t] objects [n] bytes and one word apart, as long
    as the distance fits [ptrdiff_t]. *)
Lemma ptr_diff_words dm base (n : Z) :
  0 <= n ->
  sizeof_uintptr_t dm + n < 2 ^ (8 * sizeof_uintptr_t dm - 1) ->
  ptr_diff dm (sizeof_uintptr_t dm) (base + sizeof_uintptr_t dm + n) base
  = 1 + n / sizeof_uintptr_t dm.
Proof.
  intros Hn Hfits. pose proof (sizeof_uintptr_t_pos dm) as Hpos.
  unfold ptr_diff.
  replace (base + sizeof_uintptr_t dm + n - base)
    with (1 * sizeof_uintptr_t dm + n) by lia.
  rewrite to_ptrdiff_t_small by lia.
  rewrite Z.div_add_l by lia. reflexivity.
Qed.

Lemma ELF_link_start base cs : __start (ELF.link base cs) = base.
Proof. unfold ELF.link. simpl __start. apply chunk_address_first. Qed.

Lemma ELF_link_stop base cs :
  __stop (ELF.link base cs) = base + Z.of_nat (length (concat cs)).
Proof.
  unfold ELF.link. simpl __stop. rewrite chunk_address_end.
  unfold ELF.chunks, ELF.DECLARE_SWIFT_SECTION. reflexivity.
Qed.

Lemma COFF_link_start dm base cs : __start (COFF.link dm base cs) = base.
Proof. unfold COFF.link. simpl __start. apply chunk_address_first. Qed.

Lemma COFF_link_stop dm base cs :
  __stop (COFF.link dm base cs)
  = base + sizeof_uintptr_t dm + Z.of_nat (length (concat cs)).
Proof.
  unfold COFF.link, COFF.chunks, chunk_address. simpl __stop.
  rewrite take_app_length, length_app, Nat2Z.inj_add, length_sentinel. lia.
Qed.


Lemma byte_at_offset base image (n : nat) :
  byte_at base image (base + Z.of_nat n) = image !! n.
Proof.
  unfold byte_at.
  destruct (Z.ltb_spec (base + Z.of_nat n) base) as [Hlt | _]; [lia |].
  replace (base + Z.of_nat n - base) with (Z.of_nat n) by lia.
  rewrite Nat2Z.id. reflexivity.
Qed.

(** *** What the boundary-symbol hooks deliver *)

Lemma ELF_loadImages_extern dm symbol syms r :
  ELF.loadImages dm (ExternFn symbol) syms r
  = Defined {| calls := calls r ++
                 [{| callee := symbol;
                     arg_section := __start syms;
                     arg_size := to_size_t dm (__stop syms - __start syms) |}];
               memory := memory r |}.
Proof.
  unfold ELF.loadImages, ELF.SWIFT_REGISTER_SECTION.
  rewrite ptr_diff_char. apply call_extern.
Qed.

Lemma COFF_loadImages_extern dm symbol syms r :
  COFF.loadImages dm (ExternFn symbol) syms r
  = Defined {| calls := calls r ++
                 [{| callee := symbol;
                     arg_section := __start syms;
                     arg_size :=
                       to_size_t dm
                         (ptr_diff dm (sizeof_uintptr_t dm)
                                   (__stop syms) (__start syms)) |}];
               memory := memory r |}.
Proof. reflexivity. Qed.

(** The COFF hook on a linked section whose size fits [ptrdiff_t]: the
    base is the address of the start sentinel, the length the word count
    between the two sentinels. *)
Lemma COFF_loadImages_link dm symbol base cs r :
  sizeof_uintptr_t dm + Z.of_nat (length (concat cs))
  < 2 ^ (8 * sizeof_uintptr_t dm - 1) ->
  COFF.loadImages dm (ExternFn symbol) (COFF.link dm base cs) r
  = Defined {| calls := calls r ++
                 [{| callee := symbol;
                     arg_section := base;
                     arg_size :=
                       1 + Z.of_nat (length (concat cs))
                           / sizeof_uintptr_t dm |}];
               memory := memory r |}.
Proof.
  intros Hfits. pose proof (sizeof_uintptr_t_pos dm) as Hpos.
  rewrite COFF_loadImages_extern, COFF_link_start, COFF_link_stop.
  rewrite ptr_diff_words by lia.
  rewrite to_size_t_small; [reflexivity |].
  assert (Z.of_nat (length (concat cs)) / sizeof_uintptr_t dm
          <= Z.of_nat (length (concat cs)))
    by (apply Z.div_le_upper_bound; nia).
  assert (0 <= Z.of_nat (length (concat cs)) / sizeof_uintptr_t dm)
    by (apply Z.div_pos; lia).
  assert (2 ^ (8 * sizeof_uintptr_t dm - 1) < 2 ^ (8 * sizeof_uintptr_t dm))
    by (destruct dm; reflexivity).
  lia.
Qed.

(** *** What the loader-callback hook delivers *)

Lemma loadImageCallback_extern symbol img r :
  MachO._loadImageCallback (ExternFn symbol) (MachO.header img)
                           (MachO.vmaddr_slide img) r
  = Defined {| calls := calls r ++ [MachO.delivery symbol img];
               memory := memory r |}.
Proof. reflexivity. Qed.

Lemma notify_all symbol imgs d :
  for_each (MachO.notify (MachO._loadImageCallback (ExternFn symbol))) imgs d
  = Defined
      {| MachO.images := MachO.images d;
         MachO.add_image_funcs := MachO.add_image_funcs d;
         MachO.rt :=
           {| calls := calls (MachO.rt d) ++ map (MachO.delivery symbol) imgs;
              memory := memory (MachO.rt d) |} |}.
Proof.
  revert d. induction imgs as [| img imgs IH]; intros d.
  - simpl. unfold skip. rewrite app_nil_r. destruct d as [? ? []]. reflexivity.
  - simpl for_each. unfold seq, MachO.notify at 1, MachO.in_runtime.
    rewrite loadImageCallback_extern, IH. simpl.
    rewrite <- app_assoc. reflexivity.
Qed.

Lemma MachO_loadImages_extern symbol d :
  MachO.loadImages (ExternFn symbol) d
  = Defined
      {| MachO.images := MachO.images d;
         MachO.add_image_funcs :=
           MachO.add_image_funcs d
           ++ [MachO._loadImageCallback (ExternFn symbol)];
         MachO.rt :=
           {| calls := calls (MachO.rt d)
                       ++ map (MachO.delivery symbol) (MachO.images d);
              memory := memory (MachO.rt d) |} |}.
Proof.
  unfold MachO.loadImages, MachO._dyld_register_func_for_add_image.
  rewrite notify_all. reflexivity.
Qed.

(** One image mapped while the hook is the only registered function. *)
Lemma dyld_map_image_hooked symbol img imgs r :
  MachO.dyld_map_image img
    {| MachO.images := imgs;
       MachO.add_image_funcs := [MachO._loadImageCallback (ExternFn symbol)];
       MachO.rt := r |}
  = Defined
      {| MachO.images := imgs ++ [img];
         MachO.add_image_funcs := [MachO._loadImageCallback (ExternFn symbol)];
         MachO.rt := {| calls := calls r ++ [MachO.delivery symbol img];
                        memory := memory r |} |}.
Proof. reflexivity. Qed.

Lemma dyld_map_images_hooked symbol after imgs r :
  for_each MachO.dyld_map_image after
    {| MachO.images := imgs;
       MachO.add_image_funcs := [MachO._loadImageCallback (ExternFn symbol)];
       MachO.rt := r |}
  = Defined
      {| MachO.images := imgs ++ after;
         MachO.add_image_funcs := [MachO._loadImageCallback (ExternFn symbol)];
         MachO.rt := {| calls := calls r ++ map (MachO.delivery symbol) after;
                        memory := memory r |} |}.
Proof.
  revert imgs r. induction after as [| img after IH]; intros imgs r.
  - simpl. unfold skip. rewrite !app_nil_r. destruct r. reflexivity.
  - simpl for_each. unfold seq. rewrite dyld_map_image_hooked, IH. simpl.
    rewrite <- !app_assoc. reflexivity.
Qed.

Lemma lifetime_extern symbol before after mem :
  MachO.lifetime (ExternFn symbol) after (MachO.boot before mem)
  = Defined
      {| MachO.images := before ++ after;
         MachO.add_image_funcs := [MachO._loadImageCallback (ExternFn symbol)];
         MachO.rt :=
           {| calls := map (MachO.delivery symbol) (before ++ after);
              memory := mem |} |}.
Proof.
  unfold MachO.lifetime, seq. rewrite MachO_loadImages_extern.
  unfold MachO.boot. simpl. rewrite dyld_map_images_hooked. simpl.
  rewrite map_app. reflexivity.
Qed.

End ImageFacts.

Module Hooks.

Import ImageInspection ImageFacts.

(** C5. In the ELF variant the callback receives the address of the start
    symbol and, as length, the stop address minus the start address (for
    symbols the linker put in order, a distance that fits [size_t]); with
    no contribution from any translation unit the call is still made, and
    its length is 0. *)
Theorem elf_length_is_stop_minus_start dm symbol syms r
    (Hordered : __start syms <= __stop syms)
    (Hfits : __stop syms - __start syms < 2 ^ (8 * sizeof_uintptr_t dm)) :
  ELF.loadImages dm (ExternFn symbol) syms r
  = Defined {| calls := calls r ++
                 [{| callee := symbol;
                     arg_section := __start syms;
                     arg_size := __stop syms - __start syms |}];
               memory := memory r |}
  /\ forall base,
       ELF.loadImages dm (ExternFn symbol) (ELF.link base []) r
       = Defined {| calls := calls r ++
                      [{| callee := symbol;
                          arg_section := base;
                          arg_size := 0 |}];
                    memory := memory r |}.
Proof.
  split.
  - rewrite ELF_loadImages_extern, to_size_t_small by lia. reflexivity.
  - intros base. rewrite ELF_loadImages_extern, ELF_link_start, ELF_link_stop.
    simpl concat. simpl length. rewrite Z.add_0_r, Z.sub_diag.
    destruct dm; reflexivity.
Qed.

Lemma elf_length_is_stop_minus_start_witness :
  __start (ELF.link 4096 [Samples.record16])
  <= __stop (ELF.link 4096 [Samples.record16])
  /\ __stop (ELF.link 4096 [Samples.record16])
     - __start (ELF.link 4096 [Samples.record16])
     < 2 ^ (8 * sizeof_uintptr_t LP64)
  /\ delivered (ELF.loadImages LP64 Samples.callback
                  (ELF.link 4096 [Samples.record16]) Samples.fresh)
     = Some [{| callee := "registerProtocolConformances";
                arg_section := 4096;
                arg_size := 16 |}].
Proof.
  assert (Hordered : __start (ELF.link 4096 [Samples.record16])
                     <= __stop (ELF.link 4096 [Samples.record16]))
    by (vm_compute; discriminate).
  assert (Hfits : __stop (ELF.link 4096 [Samples.record16])
                  - __start (ELF.link 4096 [Samples.record16])
                  < 2 ^ (8 * sizeof_uintptr_t LP64))
    by (vm_compute; reflexivity).
  split; [exact Hordered | split; [exact Hfits |]].
  unfold Samples.callback.
  rewrite (proj1 (elf_length_is_stop_minus_start
                    LP64 "registerProtocolConformances"
                    (ELF.link 4096 [Samples.record16]) Samples.fresh
                    Hordered Hfits)).
  reflexivity.
Defined.

(** C1, at the failing input. One 16-byte record in the section, 64-bit
    pointers, section loaded at 4096: the COFF hook hands over the length 3
    (the distance between the two sentinels counted in [uintptr_t] words,
    24 / 8, the start sentinel included), where the ELF hook hands over 16
    for the same contribution. *)
Theorem coff_one_record_delivers_3_not_16 :
  delivered (COFF.loadImages LP64 Samples.callback
               (COFF.link LP64 4096 [Samples.record16]) Samples.fresh)
  = Some [{| callee := "registerProtocolConformances";
             arg_section := 4096;
             arg_size := 3 |}]
  /\ delivered (ELF.loadImages LP64 Samples.callback
                  (ELF.link 4096 [Samples.record16]) Samples.fresh)
     = Some [{| callee := "registerProtocolConformances";
                arg_section := 4096;
                arg_size := 16 |}].
Proof. split; reflexivity. Qed.

(** The ELF hook on a linked section that fits the address space: the base
    is the load address, the length the number of contributed bytes. *)
Lemma ELF_loadImages_link dm symbol base cs r :
  Z.of_nat (length (concat cs)) < 2 ^ (8 * sizeof_uintptr_t dm) ->
  ELF.loadImages dm (ExternFn symbol) (ELF.link base cs) r
  = Defined {| calls := calls r ++
                 [{| callee := symbol;
                     arg_section := base;
                     arg_size := Z.of_nat (length (concat cs)) |}];
               memory := memory r |}.
Proof.
  intros Hfits.
  rewrite ELF_loadImages_extern, ELF_link_start, ELF_link_stop.
  replace (base + Z.of_nat (length (concat cs)) - base)
    with (Z.of_nat (length (concat cs))) by lia.
  rewrite to_size_t_small by lia. reflexivity.
Qed.

Lemma COFF_image_split dm cs :
  section_image (COFF.chunks dm cs)
  = COFF.sentinel dm ++ concat cs ++ COFF.sentinel dm.
Proof.
  unfold section_image, COFF.chunks. simpl.
  rewrite concat_app. simpl. rewrite app_nil_r. reflexivity.
Qed.

Lemma length_sentinel_nat dm :
  length (COFF.sentinel dm) = Z.to_nat (sizeof_uintptr_t dm).
Proof. unfold COFF.sentinel. apply length_replicate. Qed.

(** The first [sizeof(uintptr_t)] bytes of the merged section are the zero
    bytes of the start sentinel. *)
Lemma COFF_start_word_is_zero dm base cs k :
  0 <= k < sizeof_uintptr_t dm ->
  byte_at base (section_image (COFF.chunks dm cs)) (base + k) = Some 0.
Proof.
  intros Hk.
  replace (base + k) with (base + Z.of_nat (Z.to_nat k)) by lia.
  rewrite byte_at_offset, COFF_image_split.
  rewrite lookup_app_l by (rewrite length_sentinel_nat; lia).
  apply lookup_replicate_2. lia.
Qed.






(** [n] runs of the Mach-O [loadImages] in a row, from any loader state. *)
Lemma MachO_loadImages_times symbol n d :
  times n (MachO.loadImages (ExternFn symbol)) d
  = Defined
      {| MachO.images := MachO.images d;
         MachO.add_image_funcs :=
           MachO.add_image_funcs d
           ++ replicate n (MachO._loadImageCallback (ExternFn symbol));
         MachO.rt :=
           {| calls :=
                calls (MachO.rt d)
                ++ concat (replicate n (map (MachO.delivery symbol)
                                            (MachO.images d)));
              memory := memory (MachO.rt d) |} |}.
Proof.
  revert d. induction n as [| n IH]; intros d.
  - simpl. unfold skip. rewrite !app_nil_r. destruct d as [? ? []]. reflexivity.
  - rewrite (times_succ _ _ _ _ (MachO_loadImages_extern symbol d)), IH. simpl.
    rewrite <- !app_assoc. reflexivity.
Qed.

Lemma ELF_loadImages_times dm symbol syms n r :
  times n (ELF.loadImages dm (ExternFn symbol) syms) r
  = Defined
      {| calls :=
           calls r
           ++ replicate n
                {| callee := symbol;
                   arg_section := __start syms;
                   arg_size := to_size_t dm (__stop syms - __start syms) |};
         memory := memory r |}.
Proof.
  revert r. induction n as [| n IH]; intros r.
  - simpl. unfold skip. rewrite app_nil_r. destruct r. reflexivity.
  - rewrite (times_succ _ _ _ _ (ELF_loadImages_extern dm symbol syms r)), IH.
    simpl. rewrite <- app_assoc. reflexivity.
Qed.

(** C2, counterexample. Two runs of [loadImages] with one module mapped:
    the loader holds two registrations of the add-image function and the
    module's section has been delivered twice; in the ELF variant the
    section has been delivered twice as well. *)
Lemma loadImages_twice_registers_twice :
  registrations
    ((MachO.loadImages Samples.callback ;; MachO.loadImages Samples.callback)%proc
       (MachO.boot [Samples.image_with_section] ∅))
  = Some 2%nat
  /\ delivered_by_loader
       ((MachO.loadImages Samples.callback ;;
         MachO.loadImages Samples.callback)%proc
          (MachO.boot [Samples.image_with_section] ∅))
     = Some [{| callee := "registerProtocolConformances";
                arg_section := 8192; arg_size := 16 |};
             {| callee := "registerProtocolConformances";
                arg_section := 8192; arg_size := 16 |}]
  /\ delivered
       ((ELF.loadImages LP64 Samples.callback
           (ELF.link 4096 [Samples.record16]) ;;
         ELF.loadImages LP64 Samples.callback
           (ELF.link 4096 [Samples.record16]))%proc Samples.fresh)
     = Some [{| callee := "registerProtocolConformances";
                arg_section := 4096; arg_size := 16 |};
             {| callee := "registerProtocolConformances";
                arg_section := 4096; arg_size := 16 |}].
Proof. repeat split. Qed.

(** C2, as the code has it. [loadImages] holds no latch: [n] runs leave [n]
    more registrations of the add-image function with the loader, each of
    which delivers every module mapped so far once more, and [n] runs of the
    ELF hook deliver the section [n] times. One run gives one registration;
    that it runs once is the constructor attribute's doing. *)
Theorem loadImages_registers_once_per_run symbol n d dm syms r :
  (exists d',
     times n (MachO.loadImages (ExternFn symbol)) d = Defined d'
     /\ length (MachO.add_image_funcs d')
        = (length (MachO.add_image_funcs d) + n)%nat
     /\ calls (MachO.rt d')
        = calls (MachO.rt d)
          ++ concat (replicate n (map (MachO.delivery symbol)
                                      (MachO.images d))))
  /\ (exists r',
        times n (ELF.loadImages dm (ExternFn symbol) syms) r = Defined r'
        /\ calls r'
           = calls r
             ++ replicate n
                  {| callee := symbol;
                     arg_section := __start syms;
                     arg_size := to_size_t dm (__stop syms - __start syms) |}).
Proof.
  split.
  - eexists. split; [apply MachO_loadImages_times |]. simpl. split.
    + rewrite length_app, length_replicate. reflexivity.
    + reflexivity.
  - eexists. split; [apply ELF_loadImages_times | reflexivity].
Qed.

(** C4. In the Mach-O variant, over a process in which the constructor runs
    [loadImages] once: the callback is called once for each module mapped
    before the constructor ran and once for each module mapped after it, in
    mapping order, each time with that module's section bounds, and never a
    second time; the loader holds one registration. *)
Theorem macho_one_delivery_per_module symbol before after mem :
  exists d,
    MachO.lifetime (ExternFn symbol) after (MachO.boot before mem) = Defined d
    /\ MachO.images d = before ++ after
    /\ calls (MachO.rt d) = map (MachO.delivery symbol) (before ++ after)
    /\ length (calls (MachO.rt d)) = (length before + length after)%nat
    /\ length (MachO.add_image_funcs d) = 1%nat.
Proof.
  eexists. split; [apply lifetime_extern |]. simpl.
  repeat split. rewrite length_map, length_app. reflexivity.
Qed.

End Hooks.

(** ** What the delivered ranges cover *)

Module Ranges.

Import ImageInspection ImageFacts ELFLayout.

Lemma COFF_delivered dm symbol base cs r :
  sizeof_uintptr_t dm + Z.of_nat (length (concat cs))
  < 2 ^ (8 * sizeof_uintptr_t dm - 1) ->
  delivered (COFF.loadImages dm (ExternFn symbol) (COFF.link dm base cs) r)
  = Some (calls r ++
            [{| callee := symbol;
                arg_section := base;
                arg_size :=
                  1 + Z.of_nat (length (concat cs)) / sizeof_uintptr_t dm |}]).
Proof.
  intros Hfits. rewrite (COFF_loadImages_link dm symbol base cs r Hfits).
  reflexivity.
Qed.

(** *** Aligned inputs *)

Lemma align_up_bounds addr a :
  0 < a ->
  addr <= align_up addr a < addr + a /\ align_up addr a mod a = 0.
Proof.
  intros Ha. unfold align_up.
  pose proof (Z.mul_div_le (addr + a - 1) a Ha) as Hle.
  pose proof (Z.mul_succ_div_gt (addr + a - 1) a Ha) as Hgt.
  split; [lia | apply Z.mod_mul; lia].
Qed.

Lemma align_up_one addr : align_up addr 1 = addr.
Proof.
  unfold align_up. rewrite Z.div_1_r. lia.
Qed.

Lemma section_end_ge addr inputs :
  aligned_inputs inputs ->
  addr + Z.of_nat (length (concat (map sh_contents inputs)))
  <= section_end addr inputs.
Proof.
  intros Halign. revert addr.
  induction Halign as [| i inputs Hi Halign IH]; intros addr; simpl.
  - lia.
  - pose proof (align_up_bounds addr (sh_addralign i) Hi) as [Hup _].
    specialize (IH (align_up addr (sh_addralign i)
                    + Z.of_nat (length (sh_contents i)))).
    rewrite length_app. lia.
Qed.

Lemma length_output addr inputs :
  aligned_inputs inputs ->
  Z.of_nat (length (output addr inputs)) = section_end addr inputs - addr.
Proof.
  intros Halign. revert addr.
  induction Halign as [| i inputs Hi Halign IH]; intros addr; simpl.
  - lia.
  - pose proof (align_up_bounds addr (sh_addralign i) Hi) as [Hup _].
    rewrite !length_app, length_replicate, !Nat2Z.inj_add, IH. lia.
Qed.

(** Where input [k] lands and what is read there. *)
Lemma placed_input addr inputs :
  aligned_inputs inputs ->
  forall (k : nat) (i : input_section) (a : Z),
    inputs !! k = Some i ->
    addresses addr inputs !! k = Some a ->
    a mod sh_addralign i = 0
    /\ addr <= a
    /\ a + Z.of_nat (length (sh_contents i)) <= section_end addr inputs
    /\ forall (j : nat) (b : Z),
         sh_contents i !! j = Some b ->
         output addr inputs !! (Z.to_nat (a - addr) + j)%nat = Some b.
Proof.
  intros Halign. revert addr.
  induction Halign as [| i0 inputs Hi0 Halign IH]; intros addr k i a Hk Ha.
  - discriminate.
  - pose proof (align_up_bounds addr (sh_addralign i0) Hi0) as [Hup Hmod].
    destruct k as [| k]; simpl in Hk, Ha.
    + injection Hk as <-. injection Ha as <-.
      split; [exact Hmod |]. split; [lia |]. split.
      * pose proof (section_end_ge
                      (align_up addr (sh_addralign i0)
                       + Z.of_nat (length (sh_contents i0))) inputs Halign).
        simpl. lia.
      * intros j b Hb. simpl.
        rewrite lookup_app_r by (rewrite length_replicate; lia).
        rewrite length_replicate.
        replace (Z.to_nat (align_up addr (sh_addralign i0) - addr) + j
                 - Z.to_nat (align_up addr (sh_addralign i0) - addr))%nat
          with j by lia.
        apply lookup_app_l_Some. exact Hb.
    + destruct (IH (align_up addr (sh_addralign i0)
                    + Z.of_nat (length (sh_contents i0))) k i a Hk Ha)
        as (Hamod & Hage & Haend & Hbytes).
      split; [exact Hamod |]. split; [lia |]. split; [exact Haend |].
      intros j b Hb. simpl.
      rewrite lookup_app_r by (rewrite length_replicate; lia).
      rewrite length_replicate.
      rewrite lookup_app_r by lia.
      rewrite <- (Hbytes j b Hb). f_equal. lia.
Qed.

Lemma ELFLayout_link_end base inputs :
  __stop (link base inputs) = section_end base inputs.
Proof.
  unfold link, DECLARE_SWIFT_SECTION, ELF.DECLARE_SWIFT_SECTION. simpl.
  rewrite align_up_one, Z.add_0_r. reflexivity.
Qed.

Lemma unaligned_layout addr inputs :
  Forall (fun i => sh_addralign i = 1) inputs ->
  section_end addr inputs
  = addr + Z.of_nat (length (concat (map sh_contents inputs)))
  /\ output addr inputs = concat (map sh_contents inputs).
Proof.
  intros Hone. revert addr.
  induction Hone as [| i inputs Hi Hone IH]; intros addr; simpl.
  - split; [lia | reflexivity].
  - rewrite Hi, align_up_one, Z.sub_diag. simpl.
    destruct (IH (addr + Z.of_nat (length (sh_contents i)))) as [Hend Hout].
    rewrite Hend, Hout, length_app. split; [lia | reflexivity].
Qed.

(** X1. The ELF hook on an output section made of aligned inputs delivers
    the whole section: the range starts at the section's address and ends
    after its last input, so its length counts the inputs and the padding
    the linker put before aligned ones. Every input lies inside the range,
    at a multiple of its alignment, and its bytes are read there; when no
    input asks for an alignment there is no padding and the length is the
    number of contributed bytes. *)
Theorem elf_range_holds_every_aligned_input dm symbol base inputs r
    (Halign : Forall (fun i => 0 < sh_addralign i) inputs)
    (Hfits : section_end base inputs - base < 2 ^ (8 * sizeof_uintptr_t dm)) :
  exists ev,
    delivered (ELF.loadImages dm (ExternFn symbol) (link base inputs) r)
    = Some (calls r ++ [ev])
    /\ callee ev = symbol
    /\ arg_section ev = base
    /\ arg_size ev = section_end base inputs - base
    /\ arg_size ev = Z.of_nat (length (output base inputs))
    /\ Z.of_nat (length (concat (map sh_contents inputs))) <= arg_size ev
    /\ (forall (k : nat) (i : input_section) (a : Z),
          inputs !! k = Some i ->
          addresses base inputs !! k = Some a ->
          a mod sh_addralign i = 0
          /\ arg_section ev <= a
          /\ a + Z.of_nat (length (sh_contents i))
             <= arg_section ev + arg_size ev
          /\ forall (j : nat) (b : Z),
               sh_contents i !! j = Some b ->
               byte_at base (output base inputs) (a + Z.of_nat j) = Some b)
    /\ (Forall (fun i => sh_addralign i = 1) inputs ->
        arg_size ev = Z.of_nat (length (concat (map sh_contents inputs)))
        /\ output base inputs = concat (map sh_contents inputs)).
Proof.
  pose proof (section_end_ge base inputs Halign) as Hge.
  eexists. split.
  { rewrite ELF_loadImages_extern, ELFLayout_link_end.
    change (__start (link base inputs)) with base.
    rewrite to_size_t_small by lia. reflexivity. }
  simpl callee. simpl arg_section. simpl arg_size.
  split; [reflexivity |]. split; [reflexivity |]. split; [reflexivity |].
  split; [symmetry; apply length_output; exact Halign |].
  split; [lia |].
  split.
  - intros k i a Hk Ha.
    destruct (placed_input base inputs Halign k i a Hk Ha)
      as (Hmod & Hlow & Hhigh & Hbytes).
    split; [exact Hmod |]. split; [exact Hlow |]. split; [lia |].
    intros j b Hb.
    replace (a + Z.of_nat j)
      with (base + Z.of_nat (Z.to_nat (a - base) + j)) by lia.
    rewrite byte_at_offset. apply Hbytes. exact Hb.
  - intros Hone. destruct (unaligned_layout base inputs Hone) as [Hend Hout].
    split; [lia | exact Hout].
Qed.

Lemma elf_range_holds_every_aligned_input_witness :
  Forall (fun i => 0 < sh_addralign i)
         [{| sh_addralign := 1; sh_contents := [1; 2; 3] |};
          {| sh_addralign := 4; sh_contents := Samples.record16 |}]
  /\ section_end 4096
                 [{| sh_addralign := 1; sh_contents := [1; 2; 3] |};
                  {| sh_addralign := 4; sh_contents := Samples.record16 |}]
     - 4096 < 2 ^ (8 * sizeof_uintptr_t LP64)
  /\ exists ev,
       delivered (ELF.loadImages LP64 Samples.callback
                    (link 4096
                       [{| sh_addralign := 1; sh_contents := [1; 2; 3] |};
                        {| sh_addralign := 4;
                           sh_contents := Samples.record16 |}])
                    Samples.fresh)
       = Some (calls Samples.fresh ++ [ev])
       /\ arg_section ev = 4096
       /\ arg_size ev = 20.
Proof.
  assert (Halign : Forall (fun i => 0 < sh_addralign i)
                     [{| sh_addralign := 1; sh_contents := [1; 2; 3] |};
                      {| sh_addralign := 4;
                         sh_contents := Samples.record16 |}])
    by (repeat constructor).
  assert (Hfits : section_end 4096
                    [{| sh_addralign := 1; sh_contents := [1; 2; 3] |};
                     {| sh_addralign := 4; sh_contents := Samples.record16 |}]
                  - 4096 < 2 ^ (8 * sizeof_uintptr_t LP64))
    by (vm_compute; reflexivity).
  split; [exact Halign | split; [exact Hfits |]].
  destruct (elf_range_holds_every_aligned_input
              LP64 "registerProtocolConformances" 4096 _ Samples.fresh
              Halign Hfits)
    as (ev & Hrun & _ & Hbase & Hsize & _).
  exists ev. split; [exact Hrun |]. split; [exact Hbase |].
  rewrite Hsize. reflexivity.
Defined.

(** X2. The ELF hook does not check the order of the two symbols: with the
    stop symbol below the start symbol the difference is negative and its
    conversion to [size_t] wraps, so the callback receives
    [2^bits - (start - stop)] as the length. *)
Theorem elf_reversed_symbols_wrap dm symbol syms r
    (Hreversed : __stop syms < __start syms)
    (Hnear : __start syms - __stop syms <= 2 ^ (8 * sizeof_uintptr_t dm)) :
  delivered (ELF.loadImages dm (ExternFn symbol) syms r)
  = Some (calls r ++
            [{| callee := symbol;
                arg_section := __start syms;
                arg_size := 2 ^ (8 * sizeof_uintptr_t dm)
                            - (__start syms - __stop syms) |}]).
Proof.
  rewrite ELF_loadImages_extern. simpl. do 4 f_equal.
  unfold to_size_t.
  symmetry. apply (Z.mod_unique _ _ (-1)); lia.
Qed.

Lemma elf_reversed_symbols_wrap_witness :
  __stop {| __start := 4112; __stop := 4096 |}
  < __start {| __start := 4112; __stop := 4096 |}
  /\ __start {| __start := 4112; __stop := 4096 |}
     - __stop {| __start := 4112; __stop := 4096 |}
     <= 2 ^ (8 * sizeof_uintptr_t ILP32)
  /\ delivered (ELF.loadImages ILP32 Samples.callback
                  {| __start := 4112; __stop := 4096 |} Samples.fresh)
     = Some [{| callee := "registerProtocolConformances";
                arg_section := 4112;
                arg_size := 4294967280 |}].
Proof.
  assert (Hreversed : __stop {| __start := 4112; __stop := 4096 |}
                      < __start {| __start := 4112; __stop := 4096 |})
    by reflexivity.
  assert (Hnear : __start {| __start := 4112; __stop := 4096 |}
                  - __stop {| __start := 4112; __stop := 4096 |}
                  <= 2 ^ (8 * sizeof_uintptr_t ILP32))
    by (vm_compute; discriminate).
  split; [exact Hreversed | split; [exact Hnear |]].
  exact (elf_reversed_symbols_wrap
           ILP32 "registerProtocolConformances"
           {| __start := 4112; __stop := 4096 |} Samples.fresh
           Hreversed Hnear).
Defined.

(** X3. The COFF hook on a linked section holding [N] contributed bytes,
    the distance between the two sentinels fitting [ptrdiff_t], delivers the address of the start sentinel and the length
    [1 + N / sizeof(uintptr_t)]: at least 1, also for a section without
    contributions, and less than [N] as soon as [N] is 2 or more. *)
Theorem coff_length_is_one_plus_word_count dm symbol base cs r
    (Hfits : sizeof_uintptr_t dm + Z.of_nat (length (concat cs))
             < 2 ^ (8 * sizeof_uintptr_t dm - 1)) :
  delivered (COFF.loadImages dm (ExternFn symbol) (COFF.link dm base cs) r)
  = Some (calls r ++
            [{| callee := symbol;
                arg_section := base;
                arg_size :=
                  1 + Z.of_nat (length (concat cs)) / sizeof_uintptr_t dm |}])
  /\ 1 <= 1 + Z.of_nat (length (concat cs)) / sizeof_uintptr_t dm
  /\ (2 <= Z.of_nat (length (concat cs)) ->
      1 + Z.of_nat (length (concat cs)) / sizeof_uintptr_t dm
      < Z.of_nat (length (concat cs))).
Proof.
  pose proof (sizeof_uintptr_t_pos dm) as Hpos.
  split; [apply COFF_delivered; exact Hfits | split].
  - assert (0 <= Z.of_nat (length (concat cs)) / sizeof_uintptr_t dm)
      by (apply Z.div_pos; lia).
    lia.
  - intros Hn.
    assert (Z.of_nat (length (concat cs)) / sizeof_uintptr_t dm
            < Z.of_nat (length (concat cs)) - 1); [| lia].
    apply Z.div_lt_upper_bound; [lia |]. destruct dm; simpl; lia.
Qed.

Lemma coff_length_is_one_plus_word_count_witness :
  sizeof_uintptr_t LP64
  + Z.of_nat (length (concat [Samples.record16; Samples.record16]))
  < 2 ^ (8 * sizeof_uintptr_t LP64 - 1)
  /\ delivered (COFF.loadImages LP64 Samples.callback
                  (COFF.link LP64 4096 [Samples.record16; Samples.record16])
                  Samples.fresh)
     = Some [{| callee := "registerProtocolConformances";
                arg_section := 4096;
                arg_size := 5 |}]
  /\ 2 <= Z.of_nat (length (concat [Samples.record16; Samples.record16])).
Proof.
  assert (Hfits : sizeof_uintptr_t LP64
                  + Z.of_nat (length (concat [Samples.record16;
                                             Samples.record16]))
                  < 2 ^ (8 * sizeof_uintptr_t LP64 - 1))
    by (vm_compute; reflexivity).
  split; [exact Hfits | split].
  - exact (proj1 (coff_length_is_one_plus_word_count
                    LP64 "registerProtocolConformances" 4096
                    [Samples.record16; Samples.record16] Samples.fresh
                    Hfits)).
  - vm_compute. discriminate.
Defined.

(** X4. Read as a byte range, what the COFF hook delivers for a section
    whose sentinels are within [ptrdiff_t] of each other stays inside the
    merged section: it ends at or before the stop sentinel, and every
    address in it holds a byte of the section. *)
Theorem coff_range_ends_before_stop dm symbol base cs r
    (Hfits : sizeof_uintptr_t dm + Z.of_nat (length (concat cs))
             < 2 ^ (8 * sizeof_uintptr_t dm - 1)) :
  exists ev,
    delivered (COFF.loadImages dm (ExternFn symbol) (COFF.link dm base cs) r)
    = Some (calls r ++ [ev])
    /\ arg_section ev + arg_size ev <= __stop (COFF.link dm base cs)
    /\ forall k,
         0 <= k < arg_size ev ->
         exists b,
           byte_at base (section_image (COFF.chunks dm cs))
                   (arg_section ev + k) = Some b.
Proof.
  pose proof (sizeof_uintptr_t_pos dm) as Hpos.
  assert (Hdiv : Z.of_nat (length (concat cs)) / sizeof_uintptr_t dm
                 <= Z.of_nat (length (concat cs)))
    by (apply Z.div_le_upper_bound; nia).
  eexists. split; [apply COFF_delivered; exact Hfits |]. split.
  - rewrite COFF_link_stop. simpl. lia.
  - simpl arg_section. simpl arg_size. intros k Hk.
    replace (base + k) with (base + Z.of_nat (Z.to_nat k)) by lia.
    rewrite byte_at_offset. apply lookup_lt_is_Some.
    rewrite Hooks.COFF_image_split, !length_app, Hooks.length_sentinel_nat.
    lia.
Qed.

Lemma coff_range_ends_before_stop_witness :
  sizeof_uintptr_t ILP32 + Z.of_nat (length (concat [Samples.record16]))
  < 2 ^ (8 * sizeof_uintptr_t ILP32 - 1)
  /\ exists ev,
       delivered (COFF.loadImages ILP32 Samples.callback
                    (COFF.link ILP32 4096 [Samples.record16]) Samples.fresh)
       = Some (calls Samples.fresh ++ [ev])
       /\ arg_section ev + arg_size ev
          <= __stop (COFF.link ILP32 4096 [Samples.record16]).
Proof.
  assert (Hfits : sizeof_uintptr_t ILP32
                  + Z.of_nat (length (concat [Samples.record16]))
                  < 2 ^ (8 * sizeof_uintptr_t ILP32 - 1))
    by (vm_compute; reflexivity).
  split; [exact Hfits |].
  destruct (coff_range_ends_before_stop
              ILP32 "registerProtocolConformances" 4096
              [Samples.record16] Samples.fresh Hfits)
    as (ev & Hrun & Hend & _).
  exists ev. split; [exact Hrun | exact Hend].
Defined.

(** X5. As long as the contributions take fewer than [sizeof(uintptr_t)]
    squared bytes (64 on a 64-bit target), the byte range the COFF hook
    delivers holds none of them: every byte in it is a zero byte of the
    start sentinel. *)
Theorem coff_small_section_delivers_only_zero_bytes dm symbol base cs r
    (Hsmall : Z.of_nat (length (concat cs))
              < sizeof_uintptr_t dm * sizeof_uintptr_t dm) :
  exists ev,
    delivered (COFF.loadImages dm (ExternFn symbol) (COFF.link dm base cs) r)
    = Some (calls r ++ [ev])
    /\ forall k,
         0 <= k < arg_size ev ->
         byte_at base (section_image (COFF.chunks dm cs))
                 (arg_section ev + k) = Some 0.
Proof.
  pose proof (sizeof_uintptr_t_pos dm) as Hpos.
  assert (Hfits : sizeof_uintptr_t dm + Z.of_nat (length (concat cs))
                  < 2 ^ (8 * sizeof_uintptr_t dm - 1))
    by (destruct dm; simpl in *; lia).
  eexists. split; [apply COFF_delivered; exact Hfits |].
  simpl arg_section. simpl arg_size.
  intros k Hk. apply Hooks.COFF_start_word_is_zero.
  assert (Z.of_nat (length (concat cs)) / sizeof_uintptr_t dm
          < sizeof_uintptr_t dm)
    by (apply Z.div_lt_upper_bound; lia).
  lia.
Qed.

Lemma coff_small_section_delivers_only_zero_bytes_witness :
  Z.of_nat (length (concat [Samples.record16; Samples.record16;
                            Samples.record16]))
  < sizeof_uintptr_t LP64 * sizeof_uintptr_t LP64
  /\ exists ev,
       delivered (COFF.loadImages LP64 Samples.callback
                    (COFF.link LP64 4096 [Samples.record16; Samples.record16;
                                          Samples.record16]) Samples.fresh)
       = Some (calls Samples.fresh ++ [ev])
       /\ forall k,
            0 <= k < arg_size ev ->
            byte_at 4096
                    (section_image
                       (COFF.chunks LP64 [Samples.record16; Samples.record16;
                                          Samples.record16]))
                    (arg_section ev + k) = Some 0.
Proof.
  assert (Hsmall : Z.of_nat (length (concat [Samples.record16;
                                            Samples.record16;
                                            Samples.record16]))
                   < sizeof_uintptr_t LP64 * sizeof_uintptr_t LP64)
    by (vm_compute; reflexivity).
  split; [exact Hsmall |].
  exact (coff_small_section_delivers_only_zero_bytes
           LP64 "registerProtocolConformances" 4096
           [Samples.record16; Samples.record16; Samples.record16]
           Samples.fresh Hsmall).
Defined.

End Ranges.

(** ** Properties of the sub-section order *)

Module SubsectionFacts.

Import ImageInspection ImageFacts Subsections.

(** *** The order of suffixes *)

Lemma ltb_is_not_leb a b : String.ltb a b = negb (String.leb b a).
Proof.
  unfold String.ltb, String.leb. rewrite (String.compare_antisym b a).
  destruct (String.compare a b); reflexivity.
Qed.

Lemma ltb_leb a b : String.ltb a b = true -> String.leb a b = true.
Proof.
  unfold String.ltb, String.leb. destruct (String.compare a b); congruence.
Qed.

Lemma leb_total_false a b : String.leb a b = false -> String.leb b a = true.
Proof.
  intros Hab. destruct (String.leb_total a b) as [H | H]; congruence.
Qed.

Lemma compare_lt_trans a b c :
  String.compare a b = Lt -> String.compare b c = Lt ->
  String.compare a c = Lt.
Proof.
  intros Hab Hbc.
  apply OrderedTypeEx.String_as_OT.cmp_lt.
  apply OrderedTypeEx.String_as_OT.lt_trans with b;
    apply OrderedTypeEx.String_as_OT.cmp_lt; assumption.
Qed.

Lemma leb_trans a b c :
  String.leb a b = true -> String.leb b c = true -> String.leb a c = true.
Proof.
  unfold String.leb. intros Hab Hbc.
  destruct (String.compare a b) eqn:Eab; try discriminate;
    destruct (String.compare b c) eqn:Ebc; try discriminate.
  - apply OrderedTypeEx.String_as_OT.cmp_eq in Eab. subst. rewrite Ebc.
    reflexivity.
  - apply OrderedTypeEx.String_as_OT.cmp_eq in Eab. subst. rewrite Ebc.
    reflexivity.
  - apply OrderedTypeEx.String_as_OT.cmp_eq in Ebc. subst. rewrite Eab.
    reflexivity.
  - rewrite (compare_lt_trans a b c Eab Ebc). reflexivity.
Qed.

(** *** Placing a contribution *)

Lemma Forall_place {A : Type} (P : string * A -> Prop) e table :
  P e -> Forall P table -> Forall P (place e table).
Proof.
  intros He Htable. induction Htable as [| x table Hx Htable IH]; simpl.
  - constructor; [exact He | constructor].
  - destruct (String.leb (fst e) (fst x)).
    + constructor; [exact He | constructor; assumption].
    + constructor; assumption.
Qed.

Lemma place_sorted {A : Type} (e : string * A) table :
  StronglySorted ordered table -> StronglySorted ordered (place e table).
Proof.
  intros Hsorted. induction Hsorted as [| x table Hsorted IH Hx]; simpl.
  - constructor; constructor.
  - destruct (String.leb (fst e) (fst x)) eqn:Hex.
    + constructor; [constructor; assumption |].
      constructor; [exact Hex |].
      eapply Forall_impl; [exact Hx |].
      intros y Hxy. unfold ordered in *. eapply leb_trans; eassumption.
    + constructor; [exact IH |].
      apply Forall_place; [| exact Hx].
      unfold ordered. apply leb_total_false. exact Hex.
Qed.

Lemma merge_sorted {A : Type} (objs : list (string * A)) :
  StronglySorted ordered (merge objs).
Proof.
  induction objs as [| e objs IH]; simpl.
  - constructor.
  - apply place_sorted. exact IH.
Qed.

Lemma place_permutation {A : Type} (e : string * A) table :
  Permutation (place e table) (e :: table).
Proof.
  induction table as [| x table IH]; simpl.
  - reflexivity.
  - destruct (String.leb (fst e) (fst x)).
    + reflexivity.
    + rewrite IH. apply perm_swap.
Qed.

Lemma merge_permutation {A : Type} (objs : list (string * A)) :
  Permutation (merge objs) objs.
Proof.
  induction objs as [| e objs IH]; simpl.
  - reflexivity.
  - rewrite place_permutation, IH. reflexivity.
Qed.

Lemma filter_none {A : Type} (p : A -> bool) (l : list A) :
  Forall (fun y => p y = false) l -> List.filter p l = [].
Proof.
  intros Hall. induction Hall as [| y l Hy Hall IH]; simpl.
  - reflexivity.
  - rewrite Hy. exact IH.
Qed.

Lemma filter_all {A : Type} (p : A -> bool) (l : list A) :
  Forall (fun y => p y = true) l -> List.filter p l = l.
Proof.
  intros Hall. induction Hall as [| y l Hy Hall IH]; simpl.
  - reflexivity.
  - rewrite Hy, IH. reflexivity.
Qed.

(** In an ordered table a contribution lands after every entry with a
    smaller suffix and before all the others. *)
Lemma place_splits {A : Type} (e : string * A) table :
  StronglySorted ordered table ->
  place e table
  = List.filter (fun x => String.ltb (fst x) (fst e)) table
    ++ e :: List.filter (fun x => negb (String.ltb (fst x) (fst e))) table.
Proof.
  intros Hsorted. induction Hsorted as [| x table Hsorted IH Hx].
  - reflexivity.
  - simpl place. simpl List.filter.
    rewrite (ltb_is_not_leb (fst x) (fst e)).
    destruct (String.leb (fst e) (fst x)) eqn:Hex; simpl negb.
    + assert (Hall : Forall (fun y => String.ltb (fst y) (fst e) = false) table).
      { eapply Forall_impl; [exact Hx |]. intros y Hxy. unfold ordered in Hxy.
        rewrite ltb_is_not_leb, (leb_trans _ _ _ Hex Hxy). reflexivity. }
      rewrite (filter_none _ _ Hall), filter_all; [reflexivity |].
      eapply Forall_impl; [exact Hall |]. intros y Hy. simpl in Hy.
      rewrite Hy. reflexivity.
    + rewrite IH. reflexivity.
Qed.

Lemma for_each_app {S A : Type} (body : A -> proc S) (xs ys : list A) (s : S) :
  for_each body (xs ++ ys) s
  = (for_each body xs ;; for_each body ys)%proc s.
Proof.
  revert s. induction xs as [| x xs IH]; intros s; simpl.
  - reflexivity.
  - unfold seq in *. destruct (body x s) as [s' |]; [apply IH | reflexivity].
Qed.

Lemma initterm_app (t1 t2 : list (string * initializer)) (r : runtime) :
  _initterm (t1 ++ t2) r = (_initterm t1 ;; _initterm t2)%proc r.
Proof. apply for_each_app. Qed.

(** Placing in front of or behind a given entry. *)
Lemma place_front {A : Type} (e p : string * A) front back :
  String.leb (fst e) (fst p) = true ->
  place e (front ++ p :: back) = place e front ++ p :: back.
Proof.
  intros Hep. induction front as [| x front IH]; simpl.
  - rewrite Hep. reflexivity.
  - destruct (String.leb (fst e) (fst x)); [reflexivity |].
    rewrite IH. reflexivity.
Qed.

Lemma place_back {A : Type} (e p : string * A) front back :
  Forall (fun x => String.leb (fst e) (fst x) = false) front ->
  String.leb (fst e) (fst p) = false ->
  place e (front ++ p :: back) = front ++ p :: place e back.
Proof.
  intros Hfront Hep. induction Hfront as [| x front Hx Hfront IH]; simpl.
  - rewrite Hep. reflexivity.
  - rewrite Hx, IH. reflexivity.
Qed.

Lemma place_head {A : Type} (e : string * A) table :
  Forall (fun x => String.leb (fst e) (fst x) = true) table ->
  place e table = e :: table.
Proof.
  intros Hall. destruct Hall as [| x table Hx Hall]; simpl.
  - reflexivity.
  - rewrite Hx. reflexivity.
Qed.

Lemma Forall_merge {A : Type} (P : string * A -> Prop) objs :
  Forall P objs -> Forall P (merge objs).
Proof.
  intros Hall. induction Hall as [| e objs He Hall IH]; simpl.
  - constructor.
  - apply Forall_place; assumption.
Qed.

Lemma Forall_filter_bool {A : Type} (p : A -> bool) (l : list A) :
  Forall (fun x => p x = true) (List.filter p l).
Proof.
  induction l as [| x l IH]; simpl.
  - constructor.
  - destruct (p x) eqn:Hx; [constructor |]; assumption.
Qed.

Lemma Forall_filter_keeps {A : Type} (P : A -> Prop) (p : A -> bool) l :
  Forall P l -> Forall P (List.filter p l).
Proof.
  intros Hall. induction Hall as [| x l Hx Hall IH]; simpl.
  - constructor.
  - destruct (p x); [constructor |]; assumption.
Qed.

(** Keeping some entries commutes with placing and with merging. *)
Lemma filter_place {A : Type} (keep : string * A -> bool) e table :
  StronglySorted ordered table ->
  List.filter keep (place e table)
  = if keep e then place e (List.filter keep table)
    else List.filter keep table.
Proof.
  intros Hsorted. induction Hsorted as [| x table Hsorted IH Hx].
  - simpl. destruct (keep e); reflexivity.
  - simpl place. destruct (String.leb (fst e) (fst x)) eqn:Hex.
    + assert (Hall : Forall (fun y => String.leb (fst e) (fst y) = true)
                            (x :: table)).
      { constructor; [exact Hex |].
        eapply Forall_impl; [exact Hx |]. intros y Hxy. unfold ordered in Hxy.
        eapply leb_trans; eassumption. }
      change (List.filter keep (e :: x :: table))
        with (if keep e then e :: List.filter keep (x :: table)
              else List.filter keep (x :: table)).
      destruct (keep e); [| reflexivity].
      rewrite place_head; [reflexivity |].
      exact (Forall_filter_keeps _ keep (x :: table) Hall).
    + simpl List.filter. rewrite IH.
      destruct (keep e), (keep x); simpl; rewrite ?Hex; reflexivity.
Qed.

Lemma merge_filter {A : Type} (keep : string * A -> bool) objs :
  List.filter keep (merge objs) = merge (List.filter keep objs).
Proof.
  induction objs as [| e objs IH]; simpl.
  - reflexivity.
  - rewrite filter_place by apply merge_sorted.
    rewrite IH. destruct (keep e); reflexivity.
Qed.

Lemma filter_partition {A : Type} (p : A -> bool) (l : list A) :
  Permutation (List.filter p l ++ List.filter (fun x => negb (p x)) l) l.
Proof.
  induction l as [| x l IH]; simpl.
  - reflexivity.
  - destruct (p x); simpl.
    + constructor. exact IH.
    + etransitivity; [| constructor; exact IH].
      symmetry. apply Permutation_middle.
Qed.

(** The merged table around one entry [p], for objects linked before and
    after the object of [p]. *)
Lemma merge_around {A : Type} (p : string * A) earlier later :
  merge (earlier ++ p :: later)
  = merge (List.filter (fun e => String.leb (fst e) (fst p)) earlier
           ++ List.filter (fun e => String.ltb (fst e) (fst p)) later)
    ++ p
    :: merge (List.filter (fun e => negb (String.leb (fst e) (fst p))) earlier
              ++ List.filter (fun e => negb (String.ltb (fst e) (fst p)))
                             later).
Proof.
  induction earlier as [| e earlier IH].
  - simpl. rewrite (place_splits p (merge later) (merge_sorted later)).
    rewrite !merge_filter. reflexivity.
  - simpl app. simpl merge at 1. fold (merge (earlier ++ p :: later)).
    rewrite IH. simpl List.filter.
    destruct (String.leb (fst e) (fst p)) eqn:Hep; simpl negb.
    + rewrite place_front by exact Hep. reflexivity.
    + rewrite place_back; [reflexivity | | exact Hep].
      apply Forall_merge. apply Forall_app. split.
      * eapply Forall_impl; [apply Forall_filter_bool |]. intros x Hx.
        simpl in Hx.
        destruct (String.leb (fst e) (fst x)) eqn:Hex; [| reflexivity].
        rewrite (leb_trans _ _ _ Hex Hx) in Hep. discriminate.
      * eapply Forall_impl; [apply Forall_filter_bool |]. intros x Hx.
        simpl in Hx. apply ltb_leb in Hx.
        destruct (String.leb (fst e) (fst x)) eqn:Hex; [| reflexivity].
        rewrite (leb_trans _ _ _ Hex Hx) in Hep. discriminate.
Qed.

(** X6. Start-up on COFF, for an object linked anywhere among the others.
    The CRT calls [loadImages] through [pLoadImages] once. Before it run
    the initializers that the other objects placed in a sub-section sorting
    before [.CRT$XCIS], and those in [.CRT$XCIS] itself of the objects
    linked earlier; after it run those in [.CRT$XCIS] of the objects linked
    later and those in a sub-section sorting after it. The two groups
    together are exactly the initializers of the other objects. *)
Theorem crt_calls_loadImages_in_suffix_and_link_order
    dm f syms earlier later r :
  startup dm f syms earlier later r
  = (_initterm (merge (List.filter up_to_XCIS earlier
                       ++ List.filter before_XCIS later)) ;;
     COFF.loadImages dm f syms ;;
     _initterm (merge (List.filter (fun e => negb (up_to_XCIS e)) earlier
                       ++ List.filter (fun e => negb (before_XCIS e)) later)))%proc
      r
  /\ Permutation
       (merge (List.filter up_to_XCIS earlier
               ++ List.filter before_XCIS later)
        ++ merge (List.filter (fun e => negb (up_to_XCIS e)) earlier
                  ++ List.filter (fun e => negb (before_XCIS e)) later))
       (earlier ++ later).
Proof.
  split.
  - unfold startup. rewrite (merge_around (pLoadImages dm f syms)).
    rewrite initterm_app. unfold seq. simpl fst.
    fold up_to_XCIS. fold before_XCIS.
    change (fun e : string * initializer => String.leb (fst e) "XCIS")
      with up_to_XCIS.
    change (fun e : string * initializer => String.ltb (fst e) "XCIS")
      with before_XCIS.
    destruct (_initterm _ r) as [r' |]; reflexivity.
  - rewrite !merge_permutation.
    rewrite <- (filter_partition up_to_XCIS earlier) at 3.
    rewrite <- (filter_partition before_XCIS later) at 3.
    rewrite <- !app_assoc. apply Permutation_app_head.
    rewrite !app_assoc. apply Permutation_app_tail.
    apply Permutation_app_comm.
Qed.

(** Placing at the two ends of a table. *)
Lemma place_after_all {A : Type} (e : string * A) table :
  Forall (fun x => String.leb (fst e) (fst x) = false) table ->
  place e table = table ++ [e].
Proof.
  intros Hall. induction Hall as [| x table Hx Hall IH]; simpl.
  - reflexivity.
  - rewrite Hx, IH. reflexivity.
Qed.

Lemma place_before_last {A : Type} (e c : string * A) table :
  String.leb (fst e) (fst c) = true ->
  place e (table ++ [c]) = place e table ++ [c].
Proof.
  intros Hec. induction table as [| x table IH]; simpl.
  - rewrite Hec. reflexivity.
  - destruct (String.leb (fst e) (fst x)); [reflexivity |].
    rewrite IH. reflexivity.
Qed.

Lemma between_after_A s :
  between_A_and_C s = true -> String.leb s "A" = false.
Proof.
  unfold between_A_and_C. intros H. apply andb_prop in H as [HA _].
  rewrite ltb_is_not_leb in HA. destruct (String.leb s "A"); [discriminate |].
  reflexivity.
Qed.

Lemma between_before_C s :
  between_A_and_C s = true ->
  String.leb s "C" = true /\ String.leb "C" s = false.
Proof.
  unfold between_A_and_C. intros H. apply andb_prop in H as [_ HC].
  split; [apply ltb_leb; exact HC |].
  rewrite ltb_is_not_leb in HC. destruct (String.leb "C" s); [discriminate |].
  reflexivity.
Qed.

Lemma between_after_A_leb s :
  between_A_and_C s = true -> String.leb "A" s = true.
Proof.
  unfold between_A_and_C. intros H. apply andb_prop in H as [HA _].
  apply ltb_leb. exact HA.
Qed.

(** The two sentinels around a table of contributions whose suffixes are
    all strictly between theirs, with more such contributions placed. *)
Lemma place_between dm (pre table : list (string * list Z)) :
  Forall (fun c => between_A_and_C (fst c) = true) pre ->
  foldr place
        (("A"%string, COFF.sentinel dm) :: table
         ++ [("C"%string, COFF.sentinel dm)]) pre
  = ("A"%string, COFF.sentinel dm) :: foldr place table pre
    ++ [("C"%string, COFF.sentinel dm)].
Proof.
  intros Hpre. induction Hpre as [| c pre Hc Hpre IH]; simpl.
  - reflexivity.
  - rewrite IH. simpl. rewrite (between_after_A _ Hc).
    rewrite place_before_last by (apply between_before_C; exact Hc).
    reflexivity.
Qed.

(** X7. Whatever the order in which the objects are given to the linker,
    the merged [.sw5prtc] is the start sentinel, then the contributions
    (merged among themselves), then the stop sentinel, provided every
    contribution sits in a sub-section whose suffix sorts strictly between
    [A] and [C]. *)
Theorem sentinels_enclose_contributions dm pre post
    (Hbetween : Forall (fun c => between_A_and_C (fst c) = true)
                       (pre ++ post)) :
  map snd (merge (pre ++ declared dm ++ post))
  = COFF.chunks dm (map snd (merge (pre ++ post))).
Proof.
  apply Forall_app in Hbetween as [Hpre Hpost].
  assert (Hmerged : Forall (fun c => between_A_and_C (fst c) = true)
                           (merge post)).
  { clear Hpre. induction Hpost as [| c post Hc Hpost IH]; simpl.
    - constructor.
    - apply Forall_place; assumption. }
  unfold merge at 1. rewrite foldr_app. unfold declared. simpl foldr.
  fold (merge post). simpl COFF.sub_A. simpl COFF.sub_C.
  rewrite (place_after_all ("C"%string, COFF.sentinel dm) (merge post)).
  2: { eapply Forall_impl; [exact Hmerged |]. intros c Hc.
       apply between_before_C. exact Hc. }
  assert (Hfirst : place ("A"%string, COFF.sentinel dm)
                         (merge post ++ [("C"%string, COFF.sentinel dm)])
                   = ("A"%string, COFF.sentinel dm)
                     :: merge post ++ [("C"%string, COFF.sentinel dm)]).
  { destruct Hmerged as [| c table Hc Hmerged]; simpl.
    - reflexivity.
    - rewrite (between_after_A_leb _ Hc). reflexivity. }
  rewrite Hfirst, (place_between dm pre (merge post) Hpre).
  unfold merge. rewrite foldr_app. simpl.
  rewrite map_app. reflexivity.
Qed.

Lemma sentinels_enclose_contributions_witness :
  Forall (fun c => between_A_and_C (fst c) = true)
         ([("B"%string, Samples.record16)] ++ [("B"%string, [1; 2; 3; 4])])
  /\ map snd (merge ([("B"%string, Samples.record16)] ++ declared LP64
                     ++ [("B"%string, [1; 2; 3; 4])]))
     = [COFF.sentinel LP64; Samples.record16; [1; 2; 3; 4];
        COFF.sentinel LP64].
Proof.
  assert (Hbetween : Forall (fun c => between_A_and_C (fst c) = true)
                            ([("B"%string, Samples.record16)]
                             ++ [("B"%string, [1; 2; 3; 4])]))
    by (repeat constructor).
  split; [exact Hbetween |].
  exact (sentinels_enclose_contributions
           LP64 [("B"%string, Samples.record16)] [("B"%string, [1; 2; 3; 4])]
           Hbetween).
Defined.

End SubsectionFacts.

(** ** Properties of the metadata views *)

Module ViewFacts.

Import MetadataViews.

Ltac each_view H :=
  simpl in H;
  repeat (destruct H as [H | H]; [subst |]); [.. | contradiction].

(** X8. No view of the header has padding, on a 32-bit or on a 64-bit
    target: the size of each struct is the sum of the sizes of its fields,
    so every field starts where the one before it ends. *)
Theorem views_have_no_padding dm t (Hview : In t views) :
  sizeof dm t = payload dm t.
Proof. each_view Hview; destruct dm; reflexivity. Qed.

Lemma views_have_no_padding_witness :
  In ClassMetadataObjC views
  /\ sizeof LP64 ClassMetadataObjC = 72
  /\ payload LP64 ClassMetadataObjC = 72.
Proof.
  assert (Hview : In ClassMetadataObjC views) by (simpl; tauto).
  split; [exact Hview |].
  split; [| reflexivity].
  rewrite (views_have_no_padding LP64 ClassMetadataObjC Hview). reflexivity.
Defined.

(** X9. [ClassMetadataObjC] is [ClassMetadata] with [cacheData] and [data]
    put in after [superclass]: [kind] and [superclass] keep their offsets,
    the two new fields take the next three pointer-sized words, and every
    later field of [ClassMetadata], up to [descriptor], is found three
    pointer sizes further in [ClassMetadataObjC]. *)
Theorem objc_view_shifts_fields_by_three_words dm field off
    (Hfield : offsetof dm ClassMetadata field = Some off) :
  offsetof dm ClassMetadataObjC field
  = Some (if String.eqb field "kind" || String.eqb field "superclass"
          then off
          else off + 3 * sizeof_uintptr_t dm)
  /\ offsetof dm ClassMetadataObjC "cacheData" = Some (2 * sizeof_uintptr_t dm)
  /\ offsetof dm ClassMetadataObjC "data" = Some (4 * sizeof_uintptr_t dm)
  /\ offsetof dm ClassMetadata "cacheData" = None
  /\ offsetof dm ClassMetadata "data" = None.
Proof.
  split; [| destruct dm; repeat split].
  unfold offsetof in *.
  destruct dm; cbn -[String.eqb] in Hfield |- *;
    repeat match type of Hfield with
           | context [String.eqb ?s field] =>
               destruct (String.eqb_spec s field) as [<- | _];
               [vm_compute in Hfield |- *; injection Hfield as <-; reflexivity
               | cbn -[String.eqb] in Hfield]
           end;
    discriminate.
Qed.

Lemma objc_view_shifts_fields_by_three_words_witness :
  offsetof LP64 ClassMetadata "descriptor" = Some 40
  /\ offsetof LP64 ClassMetadataObjC "descriptor" = Some 64.
Proof.
  assert (Hfield : offsetof LP64 ClassMetadata "descriptor" = Some 40)
    by reflexivity.
  split; [exact Hfield |].
  exact (proj1 (objc_view_shifts_fields_by_three_words
                  LP64 "descriptor" 40 Hfield)).
Defined.

(** X10. The three descriptor views are made of 32-bit fields only: their
    field offsets and their sizes are the same on a 32-bit and on a 64-bit
    target, a conformance descriptor taking 16 bytes. *)
Theorem descriptor_views_are_the_same_on_every_target dm dm' t
    (Hdescriptor : In t descriptors) :
  layout dm (fields_of t) 0 = layout dm' (fields_of t) 0
  /\ sizeof dm t = sizeof dm' t
  /\ sizeof dm ConformanceDescriptor = 16.
Proof.
  each_view Hdescriptor; destruct dm, dm'; repeat split.
Qed.

Lemma descriptor_views_are_the_same_on_every_target_witness :
  In TypeContextDescriptor descriptors
  /\ layout ILP32 (fields_of TypeContextDescriptor) 0
     = [("base", 0); ("name", 8); ("accessor", 12)]%string
  /\ layout LP64 (fields_of TypeContextDescriptor) 0
     = [("base", 0); ("name", 8); ("accessor", 12)]%string.
Proof.
  assert (Hdescriptor : In TypeContextDescriptor descriptors)
    by (simpl; tauto).
  split; [exact Hdescriptor |].
  split; [reflexivity |].
  rewrite <- (proj1 (descriptor_views_are_the_same_on_every_target
                       ILP32 LP64 TypeContextDescriptor Hdescriptor)).
  reflexivity.
Defined.

End ViewFacts.

(** ** More on [shellPath] and on the loader-callback hook *)

Module Composition.

Import Shell ImageInspection ImageFacts.

(** X11. [shellPath] consults the record of the effective user and no
    other: adding or removing the record of another user changes nothing,
    while a record stored for the effective user is the one whose
    [pw_shell] is returned, and removing it makes the call undefined. *)
Theorem shellPath_reads_only_the_effective_user (o : os) (uid : N)
    (pw : passwd) (Hother : uid <> geteuid o) :
  shellPath {| effective_uid := geteuid o;
               passwd_db := <[uid := pw]> (passwd_db o) |}
  = shellPath o
  /\ shellPath {| effective_uid := geteuid o;
                  passwd_db := delete uid (passwd_db o) |}
     = shellPath o
  /\ shellPath {| effective_uid := geteuid o;
                  passwd_db := <[geteuid o := pw]> (passwd_db o) |}
     = Defined (pw_shell pw)
  /\ shellPath {| effective_uid := geteuid o;
                  passwd_db := delete (geteuid o) (passwd_db o) |}
     = Undefined.
Proof.
  unfold shellPath, getpwuid, geteuid in *. simpl. repeat split.
  - rewrite lookup_insert_ne by exact Hother. reflexivity.
  - rewrite lookup_delete_ne by exact Hother. reflexivity.
  - rewrite lookup_insert_eq. reflexivity.
  - rewrite lookup_delete_eq. reflexivity.
Qed.

Lemma shellPath_reads_only_the_effective_user_witness :
  501%N <> geteuid Samples.os_with_entry
  /\ shellPath {| effective_uid := geteuid Samples.os_with_entry;
                  passwd_db := delete 501%N (passwd_db Samples.os_with_entry) |}
     = Defined "/bin/zsh"%string.
Proof.
  assert (Hother : 501%N <> geteuid Samples.os_with_entry) by discriminate.
  split; [exact Hother |].
  rewrite (proj1 (proj2 (shellPath_reads_only_the_effective_user
                           Samples.os_with_entry 501%N Samples.root_entry
                           Hother))).
  vm_compute. reflexivity.
Defined.

(** One image announced to [n] registrations of the hook. *)
Lemma notify_registrations symbol img n d :
  for_each (fun func => MachO.notify func img)
           (replicate n (MachO._loadImageCallback (ExternFn symbol))) d
  = Defined
      {| MachO.images := MachO.images d;
         MachO.add_image_funcs := MachO.add_image_funcs d;
         MachO.rt :=
           {| calls := calls (MachO.rt d)
                       ++ replicate n (MachO.delivery symbol img);
              memory := memory (MachO.rt d) |} |}.
Proof.
  revert d. induction n as [| n IH]; intros d.
  - simpl. unfold skip. rewrite app_nil_r. destruct d as [? ? []]. reflexivity.
  - simpl for_each. unfold seq, MachO.notify at 1, MachO.in_runtime.
    rewrite loadImageCallback_extern, IH. simpl.
    rewrite <- app_assoc. reflexivity.
Qed.

Lemma dyld_map_image_registrations symbol n img imgs r :
  MachO.dyld_map_image img
    {| MachO.images := imgs;
       MachO.add_image_funcs :=
         replicate n (MachO._loadImageCallback (ExternFn symbol));
       MachO.rt := r |}
  = Defined
      {| MachO.images := imgs ++ [img];
         MachO.add_image_funcs :=
           replicate n (MachO._loadImageCallback (ExternFn symbol));
         MachO.rt :=
           {| calls := calls r ++ replicate n (MachO.delivery symbol img);
              memory := memory r |} |}.
Proof.
  unfold MachO.dyld_map_image. simpl MachO.add_image_funcs.
  rewrite notify_registrations. reflexivity.
Qed.

Lemma dyld_map_images_registrations symbol n after imgs r :
  for_each MachO.dyld_map_image after
    {| MachO.images := imgs;
       MachO.add_image_funcs :=
         replicate n (MachO._loadImageCallback (ExternFn symbol));
       MachO.rt := r |}
  = Defined
      {| MachO.images := imgs ++ after;
         MachO.add_image_funcs :=
           replicate n (MachO._loadImageCallback (ExternFn symbol));
         MachO.rt :=
           {| calls :=
                calls r
                ++ concat (map (fun img =>
                                  replicate n (MachO.delivery symbol img))
                               after);
              memory := memory r |} |}.
Proof.
  revert imgs r. induction after as [| img after IH]; intros imgs r.
  - simpl. unfold skip. rewrite !app_nil_r. destruct r. reflexivity.
  - simpl for_each. unfold seq.
    rewrite dyld_map_image_registrations, IH. simpl.
    rewrite <- !app_assoc. reflexivity.
Qed.

(** X12. On Mach-O the number of deliveries per module is the number of
    times [loadImages] has run: after [n] runs, every module mapped before
    them has been delivered [n] times and every module mapped afterwards is
    delivered [n] times when it is mapped; with no run at all nothing is
    ever delivered. *)
Theorem macho_deliveries_per_module_follow_the_runs symbol n before after mem :
  exists d,
    (times n (MachO.loadImages (ExternFn symbol)) ;;
     for_each MachO.dyld_map_image after)%proc (MachO.boot before mem)
    = Defined d
    /\ MachO.images d = before ++ after
    /\ length (MachO.add_image_funcs d) = n
    /\ calls (MachO.rt d)
       = concat (replicate n (map (MachO.delivery symbol) before))
         ++ concat (map (fun img => replicate n (MachO.delivery symbol img))
                        after)
    /\ memory (MachO.rt d) = mem.
Proof.
  eexists. split.
  - unfold seq. rewrite Hooks.MachO_loadImages_times. unfold MachO.boot.
    simpl. apply dyld_map_images_registrations.
  - simpl. repeat split. apply length_replicate.
Qed.

End Composition.
